(** * scream (Receivers/unix): the receiver's entry point

    A shallow embedding of [Receivers/unix/scream.c]: option handling,
    [get_interface], the two initialisation switches and the driver loop
    of [main], written as functions in a small trace-and-exit monad.

    The functions [main] calls in other translation units (the sinks'
    [*_output_init] and [*_output_send], the transports' [init_*] and
    [rcv_*], libc's [getopt], [inet_addr], [ioctl]) are not part of this
    file of the repository: a call to one of them is an event of the
    trace, and what it returns is read from a [world].  A callee is taken
    to return to [main]; a callee that ends the process on its own is
    outside what [main] itself does.

    The transports, their shared validation helper and the
    latency-bounded delivery are not in scream.c; the modules
    [Validation] and [Delivery] model them from the specification. *)

From Stdlib Require Import ZArith QArith List String Ascii Bool Lia PeanoNat.
Import ListNotations.

Local Open Scope string_scope.
Local Open Scope list_scope.
Local Open Scope Z_scope.

(** ** Data of scream.h and config.h *)

Inductive receiver_type : Type := Unicast | Multicast | SharedMem.
Inductive output_type : Type := Raw | Alsa | Pulseaudio.

(** The macros of config.h and network.h that [main] reads; their
    definitions are compile-time choices, taken as parameters. *)
Record config_h : Type := {
  PULSEAUDIO_ENABLE : bool;
  ALSA_ENABLE : bool;
  DEFAULT_PORT : Z
}.

(** Modelled from the spec: the format descriptor of section 3
    (scream.h, which declares the C struct, is not in this file). *)
Record AudioFormat : Type := {
  sample_rate : Z;
  sample_bits : Z;
  channels : Z;
  channel_mask : Z
}.

(** Modelled from the spec: the Frame of section 3, the content of
    [receiver_data_t]; [payload_len] is the length of [payload]. *)
Record Frame : Type := {
  format : AudioFormat;
  payload : list Z
}.

Definition receiver_data_t : Type := Frame.

Definition payload_len (f : Frame) : Z := Z.of_nat (List.length (payload f)).

(** The values the two function pointers of [main] can hold. *)
Inductive rcv_fn : Type := rcv_shmem | rcv_network.
Inductive send_fn : Type :=
  pulse_output_send | alsa_output_send | raw_output_send.

(** ** Events and the outside world *)

Inductive event : Type :=
| EvStderr (msg : string)
| EvUsage (arg0 : string)
| EvListIface (name : string) (addr : Z)
| EvSetpriority (prio : Z)
| EvPulseInit (target_ms max_ms : Z) (stream : string)
| EvAlsaInit (target_ms : Z) (device : string)
| EvRawInit
| EvInitShmem (device : option string)
| EvInitNetwork (mode : receiver_type) (iface port : Z)
                (group : option string)
| EvStoreSend (f : send_fn)
| EvStoreRcv (f : rcv_fn)
| EvCallRcv (f : rcv_fn)
| EvCallSend (f : send_fn) (data : receiver_data_t).

(** What the environment answers.  [w_rcv f i] is what the [i]-th call
    of the receive function leaves in [receiver_data]; [w_send f i d] is
    the status the [i]-th call of the send function returns. *)
Record world : Type := {
  w_inet_addr : string -> Z;
  w_ioctl_SIOCGIFADDR : string -> option Z;
  w_if_nameindex : list string;
  w_pulse_output_init : Z -> Z -> string -> Z;
  w_alsa_output_init : Z -> string -> Z;
  w_raw_output_init : Z;
  w_rcv : rcv_fn -> nat -> receiver_data_t;
  w_send : send_fn -> nat -> receiver_data_t -> Z
}.

(** ** The monad: a trace, and a value or the exit status *)

Inductive res (A : Type) : Type :=
| Val (a : A)
| Exited (status : Z).
Arguments Val {A} a.
Arguments Exited {A} status.

Definition M (A : Type) : Type := (list event * res A)%type.

Definition ret {A : Type} (a : A) : M A := ([], Val a).

Definition bind {A B : Type} (m : M A) (k : A -> M B) : M B :=
  match m with
  | (t, Val a) => let (t', r) := k a in (t ++ t', r)
  | (t, Exited s) => (t, Exited s)
  end.

Definition emit (e : event) : M unit := ([e], Val tt).

Definition exit {A : Type} (status : Z) : M A := ([], Exited status).

Definition when (b : bool) (m : M unit) : M unit := if b then m else ret tt.

Notation "x <- m ;; k" := (bind m (fun x => k))
  (at level 61, m at next level, right associativity).
Notation "m ;; k" := (bind m (fun _ => k))
  (at level 61, right associativity).

Definition trace {A : Type} (m : M A) : list event := fst m.
Definition result {A : Type} (m : M A) : res A := snd m.

(** ** libc: atoi and the integer conversions *)

Definition to_int (z : Z) : Z := (z + 2 ^ 31) mod 2 ^ 32 - 2 ^ 31.
Definition to_uint16 (z : Z) : Z := z mod 2 ^ 16.

Definition isspace (c : ascii) : bool :=
  let n := nat_of_ascii c in
  (Nat.eqb n 32 || (Nat.leb 9 n && Nat.leb n 13))%bool.

Definition digit_of (c : ascii) : option Z :=
  let n := Z.of_nat (nat_of_ascii c) in
  if ((48 <=? n) && (n <=? 57))%bool then Some (n - 48) else None.

Fixpoint skip_space (s : string) : string :=
  match s with
  | String c s' => if isspace c then skip_space s' else s
  | EmptyString => s
  end.

Fixpoint digits (acc : Z) (s : string) : Z :=
  match s with
  | String c s' =>
      match digit_of c with
      | Some d => digits (10 * acc + d) s'
      | None => acc
      end
  | EmptyString => acc
  end.

(** [atoi]: optional white space, an optional sign, then decimal digits
    up to the first other character.  C leaves a value outside [int]
    undefined; the model wraps it. *)
Definition atoi (s : string) : Z :=
  match skip_space s with
  | String c s' =>
      if Ascii.eqb c "-" then to_int (- digits 0 s')
      else if Ascii.eqb c "+" then to_int (digits 0 s')
      else to_int (digits 0 (String c s'))
  | EmptyString => 0
  end.

(** ** show_usage and get_interface *)

Definition show_usage {A : Type} (arg0 : string) : M A :=
  emit (EvUsage arg0) ;; exit 1.

Definition INADDR_ANY : Z := 0.
Definition INADDR_NONE : Z := 0xFFFFFFFF.
Definition IFNAMSIZ : Z := 16.

Fixpoint list_interfaces (w : world) (ni : list string) : M unit :=
  match ni with
  | [] => ret tt
  | name :: ni' =>
      match w_ioctl_SIOCGIFADDR w name with
      | Some a => emit (EvListIface name a)
      | None => ret tt
      end ;;
      list_interfaces w ni'
  end.

Definition iface_error_exit {A : Type} (w : world) : M A :=
  emit (EvStderr "Available interfaces:") ;;
  list_interfaces w (w_if_nameindex w) ;;
  exit 1.

Definition get_interface (w : world) (name : string) : M Z :=
  let addr := w_inet_addr w name in
  if negb (addr =? INADDR_NONE) then ret addr
  else if IFNAMSIZ <=? Z.of_nat (String.length name) then
    emit (EvStderr ("Too long interface name: " ++ name)%string) ;;
    iface_error_exit w
  else
    match w_ioctl_SIOCGIFADDR w name with
    | None =>
        emit (EvStderr ("Invalid interface: " ++ name)%string) ;;
        iface_error_exit w
    | Some a => ret a
    end.

(** ** The local variables of main that the options set *)

Record locals : Type := {
  receiver_mode : receiver_type;
  output_mode : output_type;
  multicast_group : option string;
  ivshmem_device : option string;
  output : option string;
  alsa_device : string;
  stream_name : string;
  target_latency_ms : Z;
  max_latency_ms : Z;
  interface : Z;
  port : Z;
  verbosity : Z
}.

Definition default_output_mode (cfg : config_h) : output_type :=
  if PULSEAUDIO_ENABLE cfg then Pulseaudio
  else if ALSA_ENABLE cfg then Alsa
  else Raw.

(** The initialisers of lines 111-129; [verbosity] is the global
    counter, zero when the program starts. *)
Definition initial_locals (cfg : config_h) : locals := {|
  receiver_mode := Multicast;
  output_mode := default_output_mode cfg;
  multicast_group := None;
  ivshmem_device := None;
  output := None;
  alsa_device := "default";
  stream_name := "Audio";
  target_latency_ms := 50;
  max_latency_ms := 200;
  interface := INADDR_ANY;
  port := DEFAULT_PORT cfg;
  verbosity := 0
|}.

Definition set_receiver_mode (v : receiver_type) (l : locals) : locals :=
  {| receiver_mode := v; output_mode := output_mode l;
     multicast_group := multicast_group l;
     ivshmem_device := ivshmem_device l; output := output l;
     alsa_device := alsa_device l; stream_name := stream_name l;
     target_latency_ms := target_latency_ms l;
     max_latency_ms := max_latency_ms l; interface := interface l;
     port := port l; verbosity := verbosity l |}.

Definition set_output_mode (v : output_type) (l : locals) : locals :=
  {| receiver_mode := receiver_mode l; output_mode := v;
     multicast_group := multicast_group l;
     ivshmem_device := ivshmem_device l; output := output l;
     alsa_device := alsa_device l; stream_name := stream_name l;
     target_latency_ms := target_latency_ms l;
     max_latency_ms := max_latency_ms l; interface := interface l;
     port := port l; verbosity := verbosity l |}.

Definition set_multicast_group (v : option string) (l : locals) : locals :=
  {| receiver_mode := receiver_mode l; output_mode := output_mode l;
     multicast_group := v;
     ivshmem_device := ivshmem_device l; output := output l;
     alsa_device := alsa_device l; stream_name := stream_name l;
     target_latency_ms := target_latency_ms l;
     max_latency_ms := max_latency_ms l; interface := interface l;
     port := port l; verbosity := verbosity l |}.

Definition set_ivshmem_device (v : option string) (l : locals) : locals :=
  {| receiver_mode := receiver_mode l; output_mode := output_mode l;
     multicast_group := multicast_group l;
     ivshmem_device := v; output := output l;
     alsa_device := alsa_device l; stream_name := stream_name l;
     target_latency_ms := target_latency_ms l;
     max_latency_ms := max_latency_ms l; interface := interface l;
     port := port l; verbosity := verbosity l |}.

Definition set_output (v : option string) (l : locals) : locals :=
  {| receiver_mode := receiver_mode l; output_mode := output_mode l;
     multicast_group := multicast_group l;
     ivshmem_device := ivshmem_device l; output := v;
     alsa_device := alsa_device l; stream_name := stream_name l;
     target_latency_ms := target_latency_ms l;
     max_latency_ms := max_latency_ms l; interface := interface l;
     port := port l; verbosity := verbosity l |}.

Definition set_alsa_device (v : string) (l : locals) : locals :=
  {| receiver_mode := receiver_mode l; output_mode := output_mode l;
     multicast_group := multicast_group l;
     ivshmem_device := ivshmem_device l; output := output l;
     alsa_device := v; stream_name := stream_name l;
     target_latency_ms := target_latency_ms l;
     max_latency_ms := max_latency_ms l; interface := interface l;
     port := port l; verbosity := verbosity l |}.

Definition set_stream_name (v : string) (l : locals) : locals :=
  {| receiver_mode := receiver_mode l; output_mode := output_mode l;
     multicast_group := multicast_group l;
     ivshmem_device := ivshmem_device l; output := output l;
     alsa_device := alsa_device l; stream_name := v;
     target_latency_ms := target_latency_ms l;
     max_latency_ms := max_latency_ms l; interface := interface l;
     port := port l; verbosity := verbosity l |}.

Definition set_target_latency_ms (v : Z) (l : locals) : locals :=
  {| receiver_mode := receiver_mode l; output_mode := output_mode l;
     multicast_group := multicast_group l;
     ivshmem_device := ivshmem_device l; output := output l;
     alsa_device := alsa_device l; stream_name := stream_name l;
     target_latency_ms := v;
     max_latency_ms := max_latency_ms l; interface := interface l;
     port := port l; verbosity := verbosity l |}.

Definition set_max_latency_ms (v : Z) (l : locals) : locals :=
  {| receiver_mode := receiver_mode l; output_mode := output_mode l;
     multicast_group := multicast_group l;
     ivshmem_device := ivshmem_device l; output := output l;
     alsa_device := alsa_device l; stream_name := stream_name l;
     target_latency_ms := target_latency_ms l;
     max_latency_ms := v; interface := interface l;
     port := port l; verbosity := verbosity l |}.

Definition set_interface (v : Z) (l : locals) : locals :=
  {| receiver_mode := receiver_mode l; output_mode := output_mode l;
     multicast_group := multicast_group l;
     ivshmem_device := ivshmem_device l; output := output l;
     alsa_device := alsa_device l; stream_name := stream_name l;
     target_latency_ms := target_latency_ms l;
     max_latency_ms := max_latency_ms l; interface := v;
     port := port l; verbosity := verbosity l |}.

Definition set_port (v : Z) (l : locals) : locals :=
  {| receiver_mode := receiver_mode l; output_mode := output_mode l;
     multicast_group := multicast_group l;
     ivshmem_device := ivshmem_device l; output := output l;
     alsa_device := alsa_device l; stream_name := stream_name l;
     target_latency_ms := target_latency_ms l;
     max_latency_ms := max_latency_ms l; interface := interface l;
     port := v; verbosity := verbosity l |}.

Definition set_verbosity (v : Z) (l : locals) : locals :=
  {| receiver_mode := receiver_mode l; output_mode := output_mode l;
     multicast_group := multicast_group l;
     ivshmem_device := ivshmem_device l; output := output l;
     alsa_device := alsa_device l; stream_name := stream_name l;
     target_latency_ms := target_latency_ms l;
     max_latency_ms := max_latency_ms l; interface := interface l;
     port := port l; verbosity := v |}.

(** ** The option loop

    [getopt] is libc's.  The command line reaches [main] as the
    sequence of what the successive calls of [getopt] return, the option
    character with [optarg], and as whether an argument is left over
    when it returns -1 ([optind < argc]). *)

Record cmdline : Type := {
  arg0 : string;
  opts : list (ascii * string);
  leftover : bool
}.

Definition is_opt (c : string) (opt : ascii) : bool :=
  String.eqb c (String opt EmptyString).

(** The body of the [switch (opt)] of lines 133-176. *)
Definition handle_opt (w : world) (a0 : string) (l : locals)
  (opt : ascii) (optarg : string) : M locals :=
  if is_opt "i" opt then
    a <- get_interface w optarg ;;
    ret (set_interface a l)
  else if is_opt "p" opt then
    let l' := set_port (to_uint16 (atoi optarg)) l in
    if port l' =? 0 then show_usage a0 else ret l'
  else if is_opt "u" opt then
    ret (set_receiver_mode Unicast l)
  else if is_opt "g" opt then
    ret (set_multicast_group (Some optarg) l)
  else if is_opt "m" opt then
    ret (set_ivshmem_device (Some optarg) (set_receiver_mode SharedMem l))
  else if is_opt "o" opt then
    let l' := set_output (Some optarg) l in
    if String.eqb optarg "pulse" then ret (set_output_mode Pulseaudio l')
    else if String.eqb optarg "alsa" then ret (set_output_mode Alsa l')
    else if String.eqb optarg "raw" then ret (set_output_mode Raw l')
    else ret l'
  else if is_opt "d" opt then
    ret (set_alsa_device optarg l)
  else if is_opt "n" opt then
    ret (set_stream_name optarg l)
  else if is_opt "t" opt then
    let l' := set_target_latency_ms (atoi optarg) l in
    if target_latency_ms l' <? 0 then show_usage a0 else ret l'
  else if is_opt "l" opt then
    let l' := set_max_latency_ms (atoi optarg) l in
    if max_latency_ms l' <? 0 then show_usage a0 else ret l'
  else if is_opt "v" opt then
    ret (set_verbosity (verbosity l + 1) l)
  else show_usage a0.

(** The [while ((opt = getopt(...)) != -1)] loop. *)
Fixpoint getopt_loop (w : world) (a0 : string)
  (os : list (ascii * string)) (l : locals) : M locals :=
  match os with
  | [] => ret l
  | (opt, optarg) :: os' =>
      l' <- handle_opt w a0 l opt optarg ;;
      getopt_loop w a0 os' l'
  end.

(** Lines 132-181: the option loop and the check of [optind]. *)
Definition parse_options (cfg : config_h) (w : world) (cmd : cmdline)
  : M locals :=
  l <- getopt_loop w (arg0 cmd) (opts cmd) (initial_locals cfg) ;;
  if leftover cmd then
    emit (EvStderr "Expected argument after options") ;;
    show_usage (arg0 cmd)
  else ret l.

(** ** Initialisation of the output and of the receiver *)

Definition verbose (l : locals) : bool := negb (verbosity l =? 0).

(** The [switch (output_mode)] of lines 188-221.  [return 1] from
    [main] is the exit status 1. *)
Definition init_output (cfg : config_h) (w : world) (a0 : string)
  (l : locals) : M send_fn :=
  match output_mode l with
  | Pulseaudio =>
      if PULSEAUDIO_ENABLE cfg then
        when (verbose l) (emit (EvStderr "Using Pulseaudio output")) ;;
        emit (EvPulseInit (target_latency_ms l) (max_latency_ms l)
                          (stream_name l)) ;;
        if negb (w_pulse_output_init w (target_latency_ms l)
                   (max_latency_ms l) (stream_name l) =? 0)
        then exit 1
        else emit (EvStoreSend pulse_output_send) ;; ret pulse_output_send
      else
        emit (EvStderr
                (a0 ++ " compiled without Pulseaudio support. Aborting")%string) ;;
        exit 1
  | Alsa =>
      if ALSA_ENABLE cfg then
        when (verbose l) (emit (EvStderr "Using ALSA output")) ;;
        emit (EvAlsaInit (target_latency_ms l) (alsa_device l)) ;;
        if negb (w_alsa_output_init w (target_latency_ms l)
                   (alsa_device l) =? 0)
        then exit 1
        else emit (EvStoreSend alsa_output_send) ;; ret alsa_output_send
      else
        emit (EvStderr
                (a0 ++ " compiled without ALSA support. Aborting")%string) ;;
        exit 1
  | Raw =>
      when (verbose l) (emit (EvStderr "Using raw output")) ;;
      emit EvRawInit ;;
      if negb (w_raw_output_init w =? 0) then exit 1
      else emit (EvStoreSend raw_output_send) ;; ret raw_output_send
  end.

(** The [switch (receiver_mode)] of lines 224-237. *)
Definition init_receiver (l : locals) : M rcv_fn :=
  match receiver_mode l with
  | SharedMem =>
      when (verbose l) (emit (EvStderr "Starting IVSHMEM receiver")) ;;
      emit (EvInitShmem (ivshmem_device l)) ;;
      emit (EvStoreRcv rcv_shmem) ;;
      ret rcv_shmem
  | m =>
      when (verbose l)
        (emit (EvStderr
                 (match m with
                  | Unicast => "Starting unicast receiver"
                  | _ => "Starting multicast receiver"
                  end))) ;;
      emit (EvInitNetwork m (interface l) (port l) (multicast_group l)) ;;
      emit (EvStoreRcv rcv_network) ;;
      ret rcv_network
  end.

(** ** The driver loop, lines 240-244

    [driver_loop w r s n i] runs at most [n] iterations, the first of
    them being the [i]-th of the process.  [Val tt] says that the [n]
    iterations are done and the loop is still running; [Exited 1] is the
    [return 1]. *)
Fixpoint driver_loop (w : world) (r : rcv_fn) (s : send_fn)
  (n : nat) (i : nat) : M unit :=
  match n with
  | O => ret tt
  | S n' =>
      emit (EvCallRcv r) ;;
      let receiver_data := w_rcv w r i in
      emit (EvCallSend s receiver_data) ;;
      if negb (w_send w s i receiver_data =? 0) then exit 1
      else driver_loop w r s n' (S i)
  end.

(** Everything of [main] before the loop: it yields the two function
    pointers the loop calls. *)
Definition startup (cfg : config_h) (w : world) (cmd : cmdline)
  : M (rcv_fn * send_fn) :=
  l <- parse_options cfg w cmd ;;
  emit (EvSetpriority (-11)) ;;
  output_send_fn <- init_output cfg w (arg0 cmd) l ;;
  receiver_rcv_fn <- init_receiver l ;;
  ret (receiver_rcv_fn, output_send_fn).

Definition main (cfg : config_h) (w : world) (cmd : cmdline) (n : nat)
  : M unit :=
  fns <- startup cfg w cmd ;;
  driver_loop w (fst fns) (snd fns) n O.

(** ** Vocabulary of the statements about main *)

(** The calls of [n] iterations of the loop, from the [i]-th on. *)
Fixpoint iterations (w : world) (r : rcv_fn) (s : send_fn)
  (n : nat) (i : nat) : list event :=
  match n with
  | O => []
  | S n' =>
      EvCallRcv r :: EvCallSend s (w_rcv w r i) :: iterations w r s n' (S i)
  end.

(** The status the [i]-th call of the send function returns, on what
    the [i]-th call of the receive function delivered. *)
Definition send_status (w : world) (r : rcv_fn) (s : send_fn) (i : nat) : Z :=
  w_send w s i (w_rcv w r i).

Definition is_report (e : event) : bool :=
  match e with
  | EvStderr _ | EvUsage _ | EvListIface _ _ => true
  | _ => false
  end.

Definition is_loop_call (e : event) : bool :=
  match e with
  | EvCallRcv _ | EvCallSend _ _ => true
  | _ => false
  end.

Definition is_sink_init (e : event) : bool :=
  match e with
  | EvPulseInit _ _ _ | EvAlsaInit _ _ | EvRawInit => true
  | _ => false
  end.

Definition is_transport_init (e : event) : bool :=
  match e with
  | EvInitShmem _ | EvInitNetwork _ _ _ _ => true
  | _ => false
  end.

Definition is_store (e : event) : bool :=
  match e with
  | EvStoreSend _ | EvStoreRcv _ => true
  | _ => false
  end.

(** The call of the selected sink's init function, as lines 192, 204 and
    215 write it. *)
Definition sink_init_call (l : locals) : event :=
  match output_mode l with
  | Pulseaudio =>
      EvPulseInit (target_latency_ms l) (max_latency_ms l) (stream_name l)
  | Alsa => EvAlsaInit (target_latency_ms l) (alsa_device l)
  | Raw => EvRawInit
  end.

(** What that call returns; [None] when the selected backend is not
    compiled in, in which case no init function is called. *)
Definition sink_init_status (cfg : config_h) (w : world) (l : locals)
  : option Z :=
  match output_mode l with
  | Pulseaudio =>
      if PULSEAUDIO_ENABLE cfg
      then Some (w_pulse_output_init w (target_latency_ms l)
                   (max_latency_ms l) (stream_name l))
      else None
  | Alsa =>
      if ALSA_ENABLE cfg
      then Some (w_alsa_output_init w (target_latency_ms l) (alsa_device l))
      else None
  | Raw => Some (w_raw_output_init w)
  end.

Definition send_fn_of (m : output_type) : send_fn :=
  match m with
  | Pulseaudio => pulse_output_send
  | Alsa => alsa_output_send
  | Raw => raw_output_send
  end.

(** The call of the selected transport's init function, lines 227 and
    234, and the receive function installed with it. *)
Definition transport_init_call (l : locals) : event :=
  match receiver_mode l with
  | SharedMem => EvInitShmem (ivshmem_device l)
  | m => EvInitNetwork m (interface l) (port l) (multicast_group l)
  end.

Definition rcv_fn_of (m : receiver_type) : rcv_fn :=
  match m with
  | SharedMem => rcv_shmem
  | _ => rcv_network
  end.

(** The arguments a sink init call carries, in the order of the call. *)
Inductive carg : Type :=
| IntArg (z : Z)
| StrArg (s : string).

Definition sink_init_args (e : event) : option (list carg) :=
  match e with
  | EvPulseInit t m n => Some [IntArg t; IntArg m; StrArg n]
  | EvAlsaInit t d => Some [IntArg t; StrArg d]
  | EvRawInit => Some []
  | _ => None
  end.

(** Is this the call [init(target_latency_ms, max_latency_ms, name)]
    of the sink contract, for the latencies of [l]? *)
Definition is_contract_init (l : locals) (e : event) : bool :=
  match sink_init_args e with
  | Some [IntArg t; IntArg m; StrArg _] =>
      ((t =? target_latency_ms l) && (m =? max_latency_ms l))%bool
  | _ => false
  end.

(** The values of [-o] that line 153-155 recognise. *)
Definition recognised_output (v : string) : bool :=
  (String.eqb v "pulse" || String.eqb v "alsa" || String.eqb v "raw")%bool.

Definition is_o (oa : ascii * string) : bool := is_opt "o" (fst oa).

Definition without_o (os : list (ascii * string)) : list (ascii * string) :=
  filter (fun oa => negb (is_o oa)) os.

Definition with_opts (cmd : cmdline) (os : list (ascii * string)) : cmdline :=
  {| arg0 := arg0 cmd; opts := os; leftover := leftover cmd |}.


(** A sample build (PulseAudio and ALSA both compiled in), a sample
    environment and the empty command line, for the examples. *)
Definition sample_config : config_h :=
  {| PULSEAUDIO_ENABLE := true; ALSA_ENABLE := true; DEFAULT_PORT := 4010 |}.

Definition silence : Frame :=
  {| format := {| sample_rate := 44100; sample_bits := 16; channels := 2;
                  channel_mask := 3 |};
     payload := [] |}.

(** Every init succeeds; the send function reports a fatal error at its
    third call (index 2). *)
Definition sample_world : world :=
  {| w_inet_addr := fun _ => INADDR_NONE;
     w_ioctl_SIOCGIFADDR := fun _ => None;
     w_if_nameindex := [];
     w_pulse_output_init := fun _ _ _ => 0;
     w_alsa_output_init := fun _ _ => 0;
     w_raw_output_init := 0;
     w_rcv := fun _ _ => silence;
     w_send := fun _ i _ => if Nat.eqb i 2 then -1 else 0 |}.

(** The same, except that the raw sink cannot be opened. *)
Definition broken_raw_world : world :=
  {| w_inet_addr := fun _ => INADDR_NONE;
     w_ioctl_SIOCGIFADDR := fun _ => None;
     w_if_nameindex := [];
     w_pulse_output_init := fun _ _ _ => 0;
     w_alsa_output_init := fun _ _ => 0;
     w_raw_output_init := 1;
     w_rcv := fun _ _ => silence;
     w_send := fun _ _ _ => 0 |}.

(** The sample environment with no PulseAudio server to connect to. *)
Definition pulse_down_world : world :=
  {| w_inet_addr := fun _ => INADDR_NONE;
     w_ioctl_SIOCGIFADDR := fun _ => None;
     w_if_nameindex := [];
     w_pulse_output_init := fun _ _ _ => 1;
     w_alsa_output_init := fun _ _ => 0;
     w_raw_output_init := 0;
     w_rcv := fun _ _ => silence;
     w_send := fun _ _ _ => 0 |}.

Definition no_options : cmdline :=
  {| arg0 := "scream"; opts := []; leftover := false |}.

Definition options (os : list (ascii * string)) : cmdline :=
  {| arg0 := "scream"; opts := os; leftover := false |}.

(** ** Frame validation at the Transport boundary (spec, section 4.3)

    The transports (network.c, shmem.c) are not in this file of the
    repository; what follows is written from the specification. *)
Module Validation.

(** Modelled from the spec: the size of one sample frame,
    [channels * sample_bits/8] (sections 3 and 4.3). *)
Definition frame_size (fmt : AudioFormat) : Z :=
  channels fmt * (sample_bits fmt / 8).

(** Modelled from the spec: the supported ranges of section 4.3,
    channels in [1,255] and sample_bits in {8,16,24,32}. *)
Definition supported_channels (fmt : AudioFormat) : bool :=
  ((1 <=? channels fmt) && (channels fmt <=? 255))%bool.

(** Modelled from the spec: see [supported_channels]. *)
Definition supported_bits (fmt : AudioFormat) : bool :=
  ((sample_bits fmt =? 8) || (sample_bits fmt =? 16)
   || (sample_bits fmt =? 24) || (sample_bits fmt =? 32))%bool.

(** Modelled from the spec: the validation helper shared by both
    transports, which is not in scream.c.  Given the header's format
    and the payload length, it rejects a payload that is not a multiple
    of [channels * sample_bits/8] and a format outside the supported
    ranges. *)
Definition validate (fmt : AudioFormat) (len : Z) : bool :=
  (supported_channels fmt && supported_bits fmt
   && (len mod frame_size fmt =? 0))%bool.

(** Modelled from the spec: [validate] on a decoded Frame. *)
Definition accepted (f : Frame) : bool := validate (format f) (payload_len f).

(** Modelled from the spec: one call of a transport's [receive], which
    is not in scream.c.  [incoming] is what arrives, decoded; a
    rejected Frame is dropped and the call retries; [None] stands for
    the call still waiting when the input is used up. *)
Fixpoint receive (incoming : list Frame) : option (Frame * list Frame) :=
  match incoming with
  | [] => None
  | f :: rest => if accepted f then Some (f, rest) else receive rest
  end.

(** Modelled from the spec: the Frames the successive calls of
    [receive] pass downstream to Delivery. *)
Definition downstream (incoming : list Frame) : list Frame :=
  filter accepted incoming.

(** Modelled from the spec: the invariant of sections 3 and 8 on a
    Frame. *)
Definition well_formed (f : Frame) : Prop :=
  (frame_size (format f) | payload_len f)
  /\ 1 <= channels (format f) <= 255
  /\ In (sample_bits (format f)) [8; 16; 24; 32].

End Validation.

(** ** Latency-Bounded Delivery (spec, section 4.4)

  Delivery is not in scream.c either; the model follows the
  specification. *)
Module Delivery.

(** Modelled from the spec: the two configured thresholds of section
    4.4, in milliseconds.  The spec has the queue "drained (flush)" on a
    format change and leaves open whether the drained audio is still
    played; [flush_plays] covers both readings. *)
Record thresholds : Type := {
  target_ms : Z;
  max_ms : Z;
  flush_plays : bool
}.

(** Modelled from the spec: the Delivery Queue of section 3, oldest
    Frame first, and the format of the previous Frame ([None] before the
    first one). *)
Record state : Type := {
  queue : list Frame;
  current : option AudioFormat
}.

Definition initial : state := {| queue := []; current := None |}.

(** Modelled from the spec: what the Sink observes, a reconfiguration
    or a Frame (sections 4.4 and 4.5). *)
Inductive sink_event : Type :=
| Reconfigure (fmt : AudioFormat)
| Play (f : Frame).

(** Modelled from the spec: equality of two AudioFormats (section 3),
    which decides whether the Sink is reconfigured. *)
Definition format_eqb (a b : AudioFormat) : bool :=
  ((sample_rate a =? sample_rate b) && (sample_bits a =? sample_bits b)
   && (channels a =? channels b) && (channel_mask a =? channel_mask b))%bool.

(** Modelled from the spec: the bytes per second implied by a format. *)
Definition bytes_per_second (fmt : AudioFormat) : Z :=
  sample_rate fmt * channels fmt * (sample_bits fmt / 8).

(** Modelled from the spec: the bytes queued. *)
Fixpoint queued_bytes (q : list Frame) : Z :=
  match q with
  | [] => 0
  | f :: q' => payload_len f + queued_bytes q'
  end.

(** Modelled from the spec: buffered duration, bytes queued divided by
    the bytes per second of the format, here in milliseconds. *)
Definition buffered_ms (fmt : AudioFormat) (q : list Frame) : Q :=
  (1000 * queued_bytes q) # Z.to_pos (bytes_per_second fmt).

(** Modelled from the spec: is the buffered duration at or below [ms]
    milliseconds? *)
Definition within (fmt : AudioFormat) (q : list Frame) (ms : Z) : bool :=
  Qle_bool (buffered_ms fmt q) (inject_Z ms).

(** Modelled from the spec: drop the oldest queued Frames until the
    buffered duration is back at the target latency. *)
Fixpoint drop_oldest (th : thresholds) (fmt : AudioFormat)
  (q : list Frame) : list Frame :=
  match q with
  | [] => []
  | f :: q' =>
      if within fmt q (target_ms th) then q else drop_oldest th fmt q'
  end.

(** Modelled from the spec: the enqueue/drop decision.  The Frame is
    queued; when that pushes the buffered duration above the maximum
    latency the overrun correction runs. *)
Definition enqueue (th : thresholds) (fmt : AudioFormat)
  (q : list Frame) (f : Frame) : list Frame :=
  let q' := q ++ [f] in
  if within fmt q' (max_ms th) then q' else drop_oldest th fmt q'.

(** Modelled from the spec: the drain of the queue on a format change,
    as the Sink sees it. *)
Definition flush (th : thresholds) (q : list Frame) : list sink_event :=
  if flush_plays th then map Play q else [].

(** Modelled from the spec: Delivery's handling of one incoming
    Frame.  A format that differs from the previous Frame's drains the
    queue and notifies the Sink before the Frame is queued. *)
Definition on_frame (th : thresholds) (st : state) (f : Frame)
  : state * list sink_event :=
  let fmt := format f in
  match current st with
  | Some old =>
      if format_eqb old fmt then
        ({| queue := enqueue th fmt (queue st) f; current := Some fmt |},
         [])
      else
        ({| queue := enqueue th fmt [] f; current := Some fmt |},
         flush th (queue st) ++ [Reconfigure fmt])
  | None =>
      ({| queue := enqueue th fmt [] f; current := Some fmt |}, [])
  end.

(** Modelled from the spec: the Sink takes the oldest queued Frame
    (dequeue order is FIFO). *)
Definition on_pull (st : state) : state * list sink_event :=
  match queue st with
  | [] => (st, [])
  | f :: q' => ({| queue := q'; current := current st |}, [Play f])
  end.

(** Modelled from the spec: what happens to Delivery, a Frame coming
    from the Transport or the Sink taking one. *)
Inductive input : Type :=
| Incoming (f : Frame)
| Pull.

(** Modelled from the spec: one step of Delivery, and a run of it. *)
Definition step (th : thresholds) (st : state) (i : input)
  : state * list sink_event :=
  match i with
  | Incoming f => on_frame th st f
  | Pull => on_pull st
  end.

Fixpoint run (th : thresholds) (st : state) (ins : list input)
  : state * list sink_event :=
  match ins with
  | [] => (st, [])
  | i :: ins' =>
      let (st1, e1) := step th st i in
      let (st2, e2) := run th st1 ins' in
      (st2, e1 ++ e2)
  end.


(** The format the Sink is configured for after [evs], starting from
    [cur]: the one of the last reconfiguration, or of the first Frame
    when it had none. *)
Fixpoint sink_format (cur : option AudioFormat) (evs : list sink_event)
  : option AudioFormat :=
  match evs with
  | [] => cur
  | Reconfigure fmt :: evs' => sink_format (Some fmt) evs'
  | Play f :: evs' =>
      sink_format (match cur with None => Some (format f) | c => c end) evs'
  end.

(** No Frame reaches the Sink in a format other than the one it is
    configured for. *)
Fixpoint segmented (cur : option AudioFormat) (evs : list sink_event)
  : bool :=
  match evs with
  | [] => true
  | Reconfigure fmt :: evs' => segmented (Some fmt) evs'
  | Play f :: evs' =>
      match cur with
      | None => segmented (Some (format f)) evs'
      | Some c => (format_eqb c (format f) && segmented cur evs')%bool
      end
  end.

Definition is_reconfigure (e : sink_event) : bool :=
  match e with Reconfigure _ => true | Play _ => false end.

Definition reconfigurations (evs : list sink_event) : nat :=
  List.length (filter is_reconfigure evs).

(** The format changes in a sequence of inputs, [prev] being the
    format of the Frame before it. *)
Fixpoint format_changes (prev : option AudioFormat) (ins : list input)
  : nat :=
  match ins with
  | [] => O
  | Pull :: ins' => format_changes prev ins'
  | Incoming f :: ins' =>
      match prev with
      | Some old =>
          if format_eqb old (format f)
          then format_changes (Some (format f)) ins'
          else S (format_changes (Some (format f)) ins')
      | None => format_changes (Some (format f)) ins'
      end
  end.

(** The formats and thresholds of the scenarios of section 8. *)
Definition format_A : AudioFormat :=
  {| sample_rate := 44100; sample_bits := 16; channels := 2;
     channel_mask := 3 |}.
Definition format_B : AudioFormat :=
  {| sample_rate := 48000; sample_bits := 16; channels := 2;
     channel_mask := 3 |}.

(** [n] bytes of audio in format [fmt]. *)
Definition chunk (fmt : AudioFormat) (n : Z) : Frame :=
  {| format := fmt; payload := repeat 0 (Z.to_nat n) |}.

Definition default_thresholds : thresholds :=
  {| target_ms := 50; max_ms := 200; flush_plays := true |}.


(** The format change scenario of section 8, with the Sink taking
    Frames meanwhile. *)
Definition format_change_scenario : list input :=
  [Incoming (chunk format_A 4); Incoming (chunk format_A 8); Pull;
   Incoming (chunk format_B 4); Incoming (chunk format_B 8); Pull; Pull].

(** Every queued Frame has the current format. *)
Definition uniform (st : state) : Prop :=
  Forall (fun g => Some (format g) = current st) (queue st).

(** Delivery and the Sink agree on the format: the queue is uniform and
    the Sink, once it has a format, has the current one. *)
Definition in_step (st : state) (sink : option AudioFormat) : Prop :=
  uniform st /\ (sink = None \/ sink = current st).

End Delivery.

(** The datagram of the scenario of section 8, decoded: two channels
    of 16 bits and a payload of three bytes; and a Frame of two whole
    sample frames. *)
Definition misaligned_frame : Frame :=
  {| format := Delivery.format_A; payload := [0; 0; 0] |}.

Definition aligned_frame : Frame := Delivery.chunk Delivery.format_A 8.

(** What lines 191, 203 and 214 print when [verbosity] is not zero, and
    what line 226 or 233 prints. *)
Definition announce_output (l : locals) : list event :=
  if verbose l then
    [EvStderr (match output_mode l with
               | Pulseaudio => "Using Pulseaudio output"
               | Alsa => "Using ALSA output"
               | Raw => "Using raw output"
               end)]
  else [].

Definition announce_receiver (l : locals) : list event :=
  if verbose l then
    [EvStderr (match receiver_mode l with
               | SharedMem => "Starting IVSHMEM receiver"
               | Unicast => "Starting unicast receiver"
               | Multicast => "Starting multicast receiver"
               end)]
  else [].

(** What lines 197 and 209 print for a backend that is not compiled in. *)
Definition unsupported_output (a0 : string) (l : locals) : list event :=
  [EvStderr (match output_mode l with
             | Alsa => a0 ++ " compiled without ALSA support. Aborting"
             | _ => a0 ++ " compiled without Pulseaudio support. Aborting"
             end)%string].

(** The trace of a start that gets through both initialisations, after
    the option loop. *)
Definition startup_events (l : locals) : list event :=
  EvSetpriority (-11)
  :: announce_output l
  ++ [sink_init_call l; EvStoreSend (send_fn_of (output_mode l))]
  ++ announce_receiver l
  ++ [transport_init_call l; EvStoreRcv (rcv_fn_of (receiver_mode l))].


(** A computation of the option phase: it only writes to stderr, and
    when it ends the process the status is 1. *)
Definition reports_only {A : Type} (m : M A) : Prop :=
  forallb is_report (fst m) = true /\ forall s, snd m = Exited s -> s = 1.

(** [output] is written by [-o] and read nowhere after line 155. *)
Definition forget_output (l : locals) : locals := set_output None l.

(** Two computations of the option phase that differ at most in what
    they leave in [output]. *)
Definition same_but_output (m1 m2 : M locals) : Prop :=
  fst m1 = fst m2
  /\ match snd m1, snd m2 with
     | Val l1, Val l2 => forget_output l1 = forget_output l2
     | Exited s1, Exited s2 => s1 = s2
     | _, _ => False
     end.

(** In shared-memory mode the device path is set. *)
Definition shmem_has_device (l : locals) : Prop :=
  receiver_mode l = SharedMem -> exists d, ivshmem_device l = Some d.

(** ** Vocabulary of the further properties of main *)

(** The lines that [error_exit] of [get_interface] prints, lines 91-96:
    one for each interface of [if_nameindex] that has an address. *)
Definition interface_lines (w : world) (ni : list string) : list event :=
  flat_map (fun name => match w_ioctl_SIOCGIFADDR w name with
                        | Some a => [EvListIface name a]
                        | None => []
                        end) ni.

(** Lines 183-244: what [main] does once the options are parsed. *)
Definition after_options (cfg : config_h) (w : world) (a0 : string)
  (l : locals) (n : nat) : M unit :=
  emit (EvSetpriority (-11)) ;;
  output_send_fn <- init_output cfg w a0 l ;;
  receiver_rcv_fn <- init_receiver l ;;
  driver_loop w receiver_rcv_fn output_send_fn n O.

(** The option characters that the [switch] of lines 133-176 has a case
    for. *)
Definition handled_options : list ascii :=
  list_ascii_of_string "ipugmodntlv".

(** Does one of the options satisfy [touch]?  Is option [c] given? *)
Definition touches (touch : ascii -> bool) (os : list (ascii * string))
  : bool :=
  existsb (fun oa => touch (fst oa)) os.

Definition has_opt (c : string) (os : list (ascii * string)) : bool :=
  touches (is_opt c) os.

(** The number of [-v] options. *)
Definition count_v (os : list (ascii * string)) : Z :=
  Z.of_nat (List.length (filter (fun oa => is_opt "v" (fst oa)) os)).

(** A computation that, when it returns, has written nothing. *)
Definition silent {A : Type} (m : M A) : Prop :=
  forall t a, m = (t, Val a) -> t = [].

(** The ranges the option loop keeps the numeric variables in. *)
Definition in_range (cfg : config_h) (l : locals) : Prop :=
  0 <= target_latency_ms l < 2 ^ 31
  /\ 0 <= max_latency_ms l < 2 ^ 31
  /\ (port l = DEFAULT_PORT cfg \/ 1 <= port l <= 65535).

(** The backend a value of [-o] names, lines 153-155. *)
Definition output_of_name (v : string) : option output_type :=
  if String.eqb v "pulse" then Some Pulseaudio
  else if String.eqb v "alsa" then Some Alsa
  else if String.eqb v "raw" then Some Raw
  else None.

Definition name_of_output (m : output_type) : string :=
  match m with
  | Pulseaudio => "pulse"
  | Alsa => "alsa"
  | Raw => "raw"
  end.

(** Is [e] the init call of the backend that [f] sends to, of the
    transport that [f] receives from? *)
Definition init_of_send (f : send_fn) (e : event) : bool :=
  match f, e with
  | pulse_output_send, EvPulseInit _ _ _ => true
  | alsa_output_send, EvAlsaInit _ _ => true
  | raw_output_send, EvRawInit => true
  | _, _ => false
  end.

Definition init_of_rcv (f : rcv_fn) (e : event) : bool :=
  match f, e with
  | rcv_shmem, EvInitShmem _ => true
  | rcv_network, EvInitNetwork _ _ _ _ => true
  | _, _ => false
  end.

(** Does the event belong to the PulseAudio backend, to ALSA? *)
Definition is_pulse_event (e : event) : bool :=
  match e with
  | EvPulseInit _ _ _ | EvStoreSend pulse_output_send
  | EvCallSend pulse_output_send _ => true
  | _ => false
  end.

Definition is_alsa_event (e : event) : bool :=
  match e with
  | EvAlsaInit _ _ | EvStoreSend alsa_output_send
  | EvCallSend alsa_output_send _ => true
  | _ => false
  end.

(** A build with the raw output only. *)
Definition raw_only_config : config_h :=
  {| PULSEAUDIO_ENABLE := false; ALSA_ENABLE := false; DEFAULT_PORT := 4010 |}.

(** An environment with one interface, eth0 at 10.0.0.5 (0x0500000A in
    network byte order); [inet_addr] parses "127.0.0.1" only. *)
Definition eth0_world : world :=
  {| w_inet_addr :=
       fun name => if String.eqb name "127.0.0.1" then 0x0100007F
                   else INADDR_NONE;
     w_ioctl_SIOCGIFADDR :=
       fun name => if String.eqb name "eth0" then Some 0x0500000A else None;
     w_if_nameindex := ["lo"; "eth0"];
     w_pulse_output_init := fun _ _ _ => 0;
     w_alsa_output_init := fun _ _ => 0;
     w_raw_output_init := 0;
     w_rcv := fun _ _ => silence;
     w_send := fun _ _ _ => 0 |}.

(** Two computations of the option phase that differ at most in what
    [forget] erases; and the erasers of the variables that only some
    backends read. *)
Definition same_up_to (forget : locals -> locals) (m1 m2 : M locals) : Prop :=
  fst m1 = fst m2
  /\ match snd m1, snd m2 with
     | Val l1, Val l2 => forget l1 = forget l2
     | Exited s1, Exited s2 => s1 = s2
     | _, _ => False
     end.

Definition forget_max (l : locals) : locals := set_max_latency_ms 0 l.
Definition forget_target (l : locals) : locals := set_target_latency_ms 0 l.
Definition forget_alsa_device (l : locals) : locals := set_alsa_device "" l.
Definition forget_stream_name (l : locals) : locals := set_stream_name "" l.

(** The erasers of the variables that only the network transport
    reads. *)
Definition forget_port (l : locals) : locals := set_port 0 l.
Definition forget_multicast_group (l : locals) : locals :=
  set_multicast_group None l.
Definition forget_interface (l : locals) : locals := set_interface 0 l.

(** * Properties of main *)

(** ** The monad *)

Lemma bind_val {A B : Type} (m : M A) (k : A -> M B) (t : list event) (a : A) :
  m = (t, Val a) -> bind m k = (t ++ fst (k a), snd (k a)).
Proof.
  intros ->. unfold bind. destruct (k a); reflexivity.
Qed.

Lemma bind_exited {A B : Type} (m : M A) (k : A -> M B) (t : list event)
  (s : Z) :
  m = (t, Exited s) -> bind m k = (t, Exited s).
Proof.
  intros ->. reflexivity.
Qed.

Lemma bind_val_inv {A B : Type} (m : M A) (k : A -> M B) (tr : list event)
  (b : B) :
  bind m k = (tr, Val b) ->
  exists t a t', m = (t, Val a) /\ k a = (t', Val b) /\ tr = t ++ t'.
Proof.
  destruct m as [t [a | s]]; unfold bind.
  - destruct (k a) as [t' r] eqn:E. intros H. inversion H; subst.
    exists t, a, t'. auto.
  - discriminate.
Qed.

Lemma bind_trace {A B : Type} (m : M A) (k : A -> M B) :
  exists t', fst (bind m k) = fst m ++ t'.
Proof.
  destruct m as [t [a | s]]; unfold bind; simpl.
  - destruct (k a) as [t' r]. exists t'. reflexivity.
  - exists []. now rewrite app_nil_r.
Qed.

(** ** The driver loop *)

Lemma iterations_app (w : world) (r : rcv_fn) (s : send_fn) (n m i : nat) :
  iterations w r s (n + m) i
  = iterations w r s n i ++ iterations w r s m (i + n).
Proof.
  revert i. induction n as [| n IH]; intros i; simpl.
  - now rewrite Nat.add_0_r.
  - rewrite IH. now rewrite Nat.add_succ_comm.
Qed.

Lemma driver_loop_running (w : world) (r : rcv_fn) (s : send_fn) :
  forall n i,
    (forall j, (j < n)%nat -> send_status w r s (i + j) = 0) ->
    driver_loop w r s n i = (iterations w r s n i, Val tt).
Proof.
  induction n as [| n IH]; intros i H; simpl.
  - reflexivity.
  - pose proof (H O ltac:(lia)) as H0. rewrite Nat.add_0_r in H0.
    unfold send_status in H0. unfold bind, emit. simpl. rewrite H0. simpl.
    rewrite IH; [reflexivity |].
    intros j Hj. specialize (H (S j) ltac:(lia)).
    now rewrite Nat.add_succ_comm.
Qed.

Lemma driver_loop_fatal (w : world) (r : rcv_fn) (s : send_fn) :
  forall k n i,
    (forall j, (j < k)%nat -> send_status w r s (i + j) = 0) ->
    send_status w r s (i + k) <> 0 ->
    (k < n)%nat ->
    driver_loop w r s n i = (iterations w r s (S k) i, Exited 1).
Proof.
  induction k as [| k IH]; intros n i Hz Hk Hn.
  - destruct n as [| n]; [lia |]. simpl.
    rewrite Nat.add_0_r in Hk. unfold send_status in Hk.
    apply Z.eqb_neq in Hk. unfold bind, emit. simpl. rewrite Hk. reflexivity.
  - destruct n as [| n]; [lia |].
    pose proof (Hz O ltac:(lia)) as H0. rewrite Nat.add_0_r in H0.
    unfold send_status in H0.
    change (driver_loop w r s (S n) i)
      with (emit (EvCallRcv r) ;;
            emit (EvCallSend s (w_rcv w r i)) ;;
            if negb (w_send w s i (w_rcv w r i) =? 0) then exit 1
            else driver_loop w r s n (S i)).
    rewrite H0. simpl negb. cbv iota.
    rewrite (IH n (S i)).
    + reflexivity.
    + intros j Hj. specialize (Hz (S j) ltac:(lia)).
      now rewrite Nat.add_succ_comm.
    + now rewrite Nat.add_succ_comm.
    + lia.
Qed.

Lemma driver_loop_exit_inv (w : world) (r : rcv_fn) (s : send_fn) :
  forall n i tr st,
    driver_loop w r s n i = (tr, Exited st) ->
    st = 1 /\
    exists k, (k < n)%nat /\ send_status w r s (i + k) <> 0 /\
              (forall j, (j < k)%nat -> send_status w r s (i + j) = 0) /\
              tr = iterations w r s (S k) i.
Proof.
  induction n as [| n IH]; intros i tr st H.
  - discriminate.
  - change (driver_loop w r s (S n) i)
      with (emit (EvCallRcv r) ;;
            emit (EvCallSend s (w_rcv w r i)) ;;
            if negb (w_send w s i (w_rcv w r i) =? 0) then exit 1
            else driver_loop w r s n (S i)) in H.
    destruct (w_send w s i (w_rcv w r i) =? 0) eqn:E.
    + simpl negb in H. cbv iota in H.
      destruct (driver_loop w r s n (S i)) as [t' r'] eqn:El.
      unfold bind, emit in H. simpl in H.
      inversion H; subst.
      destruct (IH (S i) t' st El) as (-> & k & Hk & Hne & Hz & ->).
      split; [reflexivity |]. exists (S k). repeat split.
      * lia.
      * now rewrite <- Nat.add_succ_comm.
      * intros [| j] Hj.
        -- rewrite Nat.add_0_r. unfold send_status. now apply Z.eqb_eq.
        -- rewrite <- Nat.add_succ_comm. apply Hz. lia.
    + inversion H; subst. split; [reflexivity |]. exists O. repeat split.
      * lia.
      * rewrite Nat.add_0_r. unfold send_status. now apply Z.eqb_neq.
      * intros j Hj. lia.
Qed.

Lemma main_after_startup (cfg : config_h) (w : world) (cmd : cmdline)
  (t0 : list event) (r : rcv_fn) (s : send_fn) (n : nat) :
  startup cfg w cmd = (t0, Val (r, s)) ->
  main cfg w cmd n
  = (t0 ++ fst (driver_loop w r s n O), snd (driver_loop w r s n O)).
Proof.
  intros H. unfold main. now rewrite (bind_val _ _ _ _ H).
Qed.

Lemma main_startup_exited (cfg : config_h) (w : world) (cmd : cmdline)
  (t0 : list event) (st : Z) (n : nat) :
  startup cfg w cmd = (t0, Exited st) -> main cfg w cmd n = (t0, Exited st).
Proof.
  intros H. unfold main. now rewrite (bind_exited _ _ _ _ H).
Qed.

(** C1.  In every execution that reaches the driver loop, each iteration
    is one call of the selected receive function followed by one call of
    the selected send function on what was received.  While the send
    function returns 0 the loop keeps running; at the first non-zero
    status the process ends with exit status 1, right after that call;
    and the process leaves the loop in no other way. *)
Theorem driver_loop_stops_only_on_fatal_send :
  forall (cfg : config_h) (w : world) (cmd : cmdline) (t0 : list event)
         (r : rcv_fn) (s : send_fn),
    startup cfg w cmd = (t0, Val (r, s)) ->
    (forall n,
        (forall i, (i < n)%nat -> send_status w r s i = 0) ->
        main cfg w cmd n = (t0 ++ iterations w r s n O, Val tt))
    /\ (forall k n,
           (forall i, (i < k)%nat -> send_status w r s i = 0) ->
           send_status w r s k <> 0 ->
           (k < n)%nat ->
           main cfg w cmd n = (t0 ++ iterations w r s (S k) O, Exited 1))
    /\ (forall n tr st,
           main cfg w cmd n = (tr, Exited st) ->
           st = 1 /\ st <> 0 /\
           exists k, (k < n)%nat /\ send_status w r s k <> 0 /\
                     (forall i, (i < k)%nat -> send_status w r s i = 0) /\
                     tr = t0 ++ iterations w r s (S k) O).
Proof.
  intros cfg w cmd t0 r s Hs. repeat split.
  - intros n Hz. rewrite (main_after_startup _ _ _ _ _ _ n Hs).
    now rewrite (driver_loop_running w r s n O Hz).
  - intros k n Hz Hk Hn. rewrite (main_after_startup _ _ _ _ _ _ n Hs).
    now rewrite (driver_loop_fatal w r s k n O Hz Hk Hn).
  - rewrite (main_after_startup _ _ _ _ _ _ n Hs) in H.
    destruct (driver_loop w r s n O) as [t' r'] eqn:E. simpl in H.
    inversion H; subst.
    now destruct (driver_loop_exit_inv w r s n O t' st E).
  - rewrite (main_after_startup _ _ _ _ _ _ n Hs) in H.
    destruct (driver_loop w r s n O) as [t' r'] eqn:E. simpl in H.
    inversion H; subst.
    destruct (driver_loop_exit_inv w r s n O t' st E) as [-> _]. lia.
  - rewrite (main_after_startup _ _ _ _ _ _ n Hs) in H.
    destruct (driver_loop w r s n O) as [t' r'] eqn:E. simpl in H.
    inversion H; subst.
    destruct (driver_loop_exit_inv w r s n O t' st E)
      as (_ & k & Hk & Hne & Hz & ->).
    exists k. auto.
Qed.

(** ** The option phase writes to stderr only *)

Lemma reports_only_ret {A : Type} (a : A) : reports_only (ret a).
Proof. split; [reflexivity | discriminate]. Qed.

Lemma reports_only_bind {A B : Type} (m : M A) (k : A -> M B) :
  reports_only m -> (forall a, reports_only (k a)) -> reports_only (bind m k).
Proof.
  unfold reports_only. intros [Hm Hs] Hk.
  destruct m as [t [a | s]]; unfold bind; simpl in *.
  - destruct (Hk a) as [Ht Hx]. destruct (k a) as [t' r]. simpl in *.
    split; [| exact Hx]. rewrite forallb_app, Hm, Ht. reflexivity.
  - split; [exact Hm |]. intros s0 E. apply Hs. now inversion E.
Qed.

Lemma reports_only_show_usage {A : Type} (a0 : string) :
  reports_only (@show_usage A a0).
Proof. split; [reflexivity |]. simpl. intros s H. now inversion H. Qed.

Lemma reports_only_list_interfaces (w : world) (ni : list string) :
  reports_only (list_interfaces w ni).
Proof.
  induction ni as [| name ni IH]; simpl.
  - apply reports_only_ret.
  - apply reports_only_bind; [| intros _; exact IH].
    destruct (w_ioctl_SIOCGIFADDR w name).
    + split; [reflexivity | discriminate].
    + apply reports_only_ret.
Qed.

Lemma reports_only_iface_error_exit {A : Type} (w : world) :
  reports_only (@iface_error_exit A w).
Proof.
  unfold iface_error_exit.
  apply reports_only_bind; [split; [reflexivity | discriminate] |].
  intros _. apply reports_only_bind; [apply reports_only_list_interfaces |].
  intros _. split; [reflexivity |]. simpl. intros s H. now inversion H.
Qed.

Lemma reports_only_get_interface (w : world) (name : string) :
  reports_only (get_interface w name).
Proof.
  unfold get_interface.
  destruct (negb (w_inet_addr w name =? INADDR_NONE));
    [apply reports_only_ret |].
  destruct (IFNAMSIZ <=? Z.of_nat (String.length name)).
  - apply reports_only_bind; [split; [reflexivity | discriminate] |].
    intros _. apply reports_only_iface_error_exit.
  - destruct (w_ioctl_SIOCGIFADDR w name); [apply reports_only_ret |].
    apply reports_only_bind; [split; [reflexivity | discriminate] |].
    intros _. apply reports_only_iface_error_exit.
Qed.

Lemma reports_only_handle_opt (w : world) (a0 : string) (l : locals)
  (opt : ascii) (optarg : string) :
  reports_only (handle_opt w a0 l opt optarg).
Proof.
  unfold handle_opt.
  repeat match goal with
         | |- reports_only (if ?b then _ else _) => destruct b
         | |- reports_only (ret _) => apply reports_only_ret
         | |- reports_only (show_usage _) => apply reports_only_show_usage
         | |- reports_only (bind _ _) =>
             apply reports_only_bind;
             [apply reports_only_get_interface | intros ?]
         | |- reports_only (let _ := _ in _) => cbv zeta
         end.
Qed.

Lemma reports_only_getopt_loop (w : world) (a0 : string) :
  forall os l, reports_only (getopt_loop w a0 os l).
Proof.
  induction os as [| [opt optarg] os IH]; intros l; simpl.
  - apply reports_only_ret.
  - apply reports_only_bind; [apply reports_only_handle_opt | intros l'].
    apply IH.
Qed.

Lemma reports_only_parse_options (cfg : config_h) (w : world) (cmd : cmdline) :
  reports_only (parse_options cfg w cmd).
Proof.
  unfold parse_options.
  apply reports_only_bind; [apply reports_only_getopt_loop | intros l].
  destruct (leftover cmd); [| apply reports_only_ret].
  apply reports_only_bind; [split; [reflexivity | discriminate] |].
  intros _. apply reports_only_show_usage.
Qed.

Lemma filter_reports (p : event -> bool) (t : list event) :
  (forall e, is_report e = true -> p e = false) ->
  forallb is_report t = true -> filter p t = [].
Proof.
  intros Hp. induction t as [| e t IH]; simpl; intros H; [reflexivity |].
  apply andb_true_iff in H as [He Ht]. rewrite (Hp e He). auto.
Qed.

Lemma report_not_loop_call (e : event) :
  is_report e = true -> is_loop_call e = false.
Proof. destruct e; simpl; congruence. Qed.

Lemma report_not_sink_init (e : event) :
  is_report e = true -> is_sink_init e = false.
Proof. destruct e; simpl; congruence. Qed.

Lemma report_not_transport_init (e : event) :
  is_report e = true -> is_transport_init e = false.
Proof. destruct e; simpl; congruence. Qed.

Lemma report_not_store (e : event) :
  is_report e = true -> is_store e = false.
Proof. destruct e; simpl; congruence. Qed.

(** ** The two initialisation switches, as equations *)

Lemma init_output_eq (cfg : config_h) (w : world) (a0 : string) (l : locals) :
  init_output cfg w a0 l
  = match sink_init_status cfg w l with
    | Some st =>
        if st =? 0
        then (announce_output l
              ++ [sink_init_call l; EvStoreSend (send_fn_of (output_mode l))],
              Val (send_fn_of (output_mode l)))
        else (announce_output l ++ [sink_init_call l], Exited 1)
    | None => (unsupported_output a0 l, Exited 1)
    end.
Proof.
  unfold init_output, sink_init_status, announce_output, sink_init_call,
    unsupported_output.
  destruct (output_mode l); simpl.
  - destruct (verbose l), (w_raw_output_init w =? 0); reflexivity.
  - destruct (ALSA_ENABLE cfg); [| reflexivity].
    destruct (verbose l),
      (w_alsa_output_init w (target_latency_ms l) (alsa_device l) =? 0);
      reflexivity.
  - destruct (PULSEAUDIO_ENABLE cfg); [| reflexivity].
    destruct (verbose l),
      (w_pulse_output_init w (target_latency_ms l) (max_latency_ms l)
         (stream_name l) =? 0);
      reflexivity.
Qed.

Lemma init_receiver_eq (l : locals) :
  init_receiver l
  = (announce_receiver l
     ++ [transport_init_call l; EvStoreRcv (rcv_fn_of (receiver_mode l))],
     Val (rcv_fn_of (receiver_mode l))).
Proof.
  unfold init_receiver, announce_receiver, transport_init_call.
  destruct (receiver_mode l), (verbose l); reflexivity.
Qed.

Lemma startup_eq (cfg : config_h) (w : world) (cmd : cmdline)
  (tp : list event) (l : locals) :
  parse_options cfg w cmd = (tp, Val l) ->
  startup cfg w cmd
  = match sink_init_status cfg w l with
    | Some st =>
        if st =? 0
        then (tp ++ startup_events l,
              Val (rcv_fn_of (receiver_mode l), send_fn_of (output_mode l)))
        else (tp ++ EvSetpriority (-11)
                 :: announce_output l ++ [sink_init_call l],
              Exited 1)
    | None =>
        (tp ++ EvSetpriority (-11) :: unsupported_output (arg0 cmd) l,
         Exited 1)
    end.
Proof.
  intros Hp. unfold startup. rewrite (bind_val _ _ _ _ Hp).
  rewrite init_output_eq, init_receiver_eq. unfold startup_events.
  destruct (sink_init_status cfg w l) as [st |]; [| reflexivity].
  destruct (st =? 0); simpl.
  - now rewrite <- !app_assoc.
  - reflexivity.
Qed.

Lemma startup_parse_exited (cfg : config_h) (w : world) (cmd : cmdline)
  (tp : list event) (s : Z) :
  parse_options cfg w cmd = (tp, Exited s) ->
  startup cfg w cmd = (tp, Exited s).
Proof.
  intros Hp. unfold startup. now rewrite (bind_exited _ _ _ _ Hp).
Qed.

(** A start that reaches the loop went through the option phase and a
    sink init that returned 0. *)
Lemma startup_val_inv (cfg : config_h) (w : world) (cmd : cmdline)
  (t0 : list event) (r : rcv_fn) (s : send_fn) :
  startup cfg w cmd = (t0, Val (r, s)) ->
  exists tp l,
    parse_options cfg w cmd = (tp, Val l)
    /\ sink_init_status cfg w l = Some 0
    /\ t0 = tp ++ startup_events l
    /\ r = rcv_fn_of (receiver_mode l)
    /\ s = send_fn_of (output_mode l).
Proof.
  intros H. destruct (parse_options cfg w cmd) as [tp [l | st]] eqn:Hp.
  - rewrite (startup_eq _ _ _ _ _ Hp) in H.
    destruct (sink_init_status cfg w l) as [st |] eqn:Hst; [| discriminate].
    destruct (st =? 0) eqn:E; [| discriminate].
    apply Z.eqb_eq in E. subst st. inversion H; subst.
    exists tp, l. repeat split; auto.
  - rewrite (startup_parse_exited _ _ _ _ _ Hp) in H. discriminate.
Qed.

Lemma driver_loop_calls (w : world) (r : rcv_fn) (s : send_fn) :
  forall n i,
    Forall (fun e => e = EvCallRcv r \/ exists d, e = EvCallSend s d)
           (fst (driver_loop w r s n i)).
Proof.
  induction n as [| n IH]; intros i.
  - constructor.
  - change (driver_loop w r s (S n) i)
      with (emit (EvCallRcv r) ;;
            emit (EvCallSend s (w_rcv w r i)) ;;
            if negb (w_send w s i (w_rcv w r i) =? 0) then exit 1
            else driver_loop w r s n (S i)).
    specialize (IH (S i)).
    destruct (negb (w_send w s i (w_rcv w r i) =? 0));
      [| destruct (driver_loop w r s n (S i)) as [t' r']];
      unfold bind, emit; simpl;
      (constructor; [now left |]);
      (constructor; [right; eexists; reflexivity |]); [constructor | exact IH].
Qed.

Lemma filter_loop_calls (p : event -> bool) (r : rcv_fn) (s : send_fn)
  (t : list event) :
  (forall e, is_loop_call e = true -> p e = false) ->
  Forall (fun e => e = EvCallRcv r \/ exists d, e = EvCallSend s d) t ->
  filter p t = [].
Proof.
  intros Hp. induction 1 as [| e t He _ IH]; simpl; [reflexivity |].
  rewrite Hp; [exact IH |]. destruct He as [-> | [d ->]]; reflexivity.
Qed.

Lemma startup_events_transport_init (l : locals) :
  filter is_transport_init (startup_events l) = [transport_init_call l].
Proof.
  unfold startup_events, announce_output, announce_receiver, sink_init_call,
    transport_init_call.
  destruct (verbose l), (output_mode l), (receiver_mode l); reflexivity.
Qed.

Lemma startup_events_sink_init (l : locals) :
  filter is_sink_init (startup_events l) = [sink_init_call l].
Proof.
  unfold startup_events, announce_output, announce_receiver, sink_init_call,
    transport_init_call.
  destruct (verbose l), (output_mode l), (receiver_mode l); reflexivity.
Qed.

Lemma startup_events_store (l : locals) :
  filter is_store (startup_events l)
  = [EvStoreSend (send_fn_of (output_mode l));
     EvStoreRcv (rcv_fn_of (receiver_mode l))].
Proof.
  unfold startup_events, announce_output, announce_receiver, sink_init_call,
    transport_init_call.
  destruct (verbose l), (output_mode l), (receiver_mode l); reflexivity.
Qed.

Lemma startup_events_no_loop_call (l : locals) :
  filter is_loop_call (startup_events l) = [].
Proof.
  unfold startup_events, announce_output, announce_receiver, sink_init_call,
    transport_init_call.
  destruct (verbose l), (output_mode l), (receiver_mode l); reflexivity.
Qed.

Lemma sink_init_call_is_sink_init (l : locals) :
  is_sink_init (sink_init_call l) = true.
Proof. unfold sink_init_call. destruct (output_mode l); reflexivity. Qed.

Lemma announce_output_reports (l : locals) :
  forallb is_report (announce_output l) = true.
Proof. unfold announce_output. destruct (verbose l); reflexivity. Qed.

Lemma filter_nil_not_in (p : event -> bool) (t : list event) (e : event) :
  filter p t = [] -> In e t -> p e = false.
Proof.
  intros Hf Hin. destruct (p e) eqn:E; [| reflexivity].
  assert (In e (filter p t)) as H by (apply filter_In; auto).
  rewrite Hf in H. destruct H.
Qed.

(** The trace of main: the start, then calls of the loop only. *)
Lemma main_trace_split (cfg : config_h) (w : world) (cmd : cmdline)
  (t0 : list event) (r : rcv_fn) (s : send_fn) (n : nat) :
  startup cfg w cmd = (t0, Val (r, s)) ->
  exists tl,
    fst (main cfg w cmd n) = t0 ++ tl
    /\ Forall (fun e => e = EvCallRcv r \/ exists d, e = EvCallSend s d) tl.
Proof.
  intros Hs. rewrite (main_after_startup _ _ _ _ _ _ n Hs). simpl.
  eexists. split; [reflexivity |]. apply driver_loop_calls.
Qed.

(** C3.  When the init function of the selected output backend returns
    a non-zero result, the process ends with a non-zero exit status
    right after that call: the trace holds no call of a receive function
    and no call of a send function, however long the process is
    observed. *)
Theorem failed_sink_init_aborts_before_loop :
  forall (cfg : config_h) (w : world) (cmd : cmdline) (tp : list event)
         (l : locals) (st : Z),
    parse_options cfg w cmd = (tp, Val l) ->
    sink_init_status cfg w l = Some st ->
    st <> 0 ->
    forall n,
      exists status,
        main cfg w cmd n
        = (tp ++ EvSetpriority (-11)
              :: announce_output l ++ [sink_init_call l],
           Exited status)
        /\ status <> 0
        /\ filter is_loop_call (fst (main cfg w cmd n)) = []
        /\ filter is_transport_init (fst (main cfg w cmd n)) = [].
Proof.
  intros cfg w cmd tp l st Hp Hst Hne n.
  assert (main cfg w cmd n
          = (tp ++ EvSetpriority (-11)
                :: announce_output l ++ [sink_init_call l], Exited 1)) as Hm.
  { apply main_startup_exited. rewrite (startup_eq _ _ _ _ _ Hp), Hst.
    apply Z.eqb_neq in Hne. now rewrite Hne. }
  exists 1. rewrite Hm. simpl fst.
  destruct (reports_only_parse_options cfg w cmd) as [Hr _].
  rewrite Hp in Hr. simpl in Hr.
  repeat split; try lia.
  - rewrite filter_app, (filter_reports _ _ report_not_loop_call Hr). simpl.
    rewrite filter_app, (filter_reports _ _ report_not_loop_call
                           (announce_output_reports l)).
    unfold sink_init_call. destruct (output_mode l); reflexivity.
  - rewrite filter_app, (filter_reports _ _ report_not_transport_init Hr).
    simpl.
    rewrite filter_app, (filter_reports _ _ report_not_transport_init
                           (announce_output_reports l)).
    unfold sink_init_call. destruct (output_mode l); reflexivity.
Qed.

(** A run where the raw sink cannot be opened: the process ends with
    status 1 right after the call of [raw_output_init]. *)
Lemma failed_sink_init_aborts_before_loop_witness :
  exists status,
    main sample_config broken_raw_world
      (options [("o"%char, "raw"); ("m"%char, "/dev/shmem")]) 7
    = ([EvSetpriority (-11); EvRawInit], Exited status)
    /\ status <> 0.
Proof.
  destruct (failed_sink_init_aborts_before_loop sample_config broken_raw_world
              (options [("o"%char, "raw"); ("m"%char, "/dev/shmem")])
              [] _ 1 eq_refl eq_refl ltac:(discriminate) 7%nat)
    as (status & Hm & Hne & _).
  exists status. split; [exact Hm | exact Hne].
Defined.

(** The run of the sample world on the empty command line: two
    iterations pass, the third send is fatal. *)
Lemma driver_loop_stops_only_on_fatal_send_witness :
  main sample_config sample_world no_options 2
  = ([EvSetpriority (-11); EvPulseInit 50 200 "Audio";
      EvStoreSend pulse_output_send; EvInitNetwork Multicast 0 4010 None;
      EvStoreRcv rcv_network]
     ++ iterations sample_world rcv_network pulse_output_send 2 0, Val tt)
  /\ main sample_config sample_world no_options 9
     = ([EvSetpriority (-11); EvPulseInit 50 200 "Audio";
         EvStoreSend pulse_output_send; EvInitNetwork Multicast 0 4010 None;
         EvStoreRcv rcv_network]
        ++ iterations sample_world rcv_network pulse_output_send 3 0,
        Exited 1).
Proof.
  destruct (driver_loop_stops_only_on_fatal_send sample_config sample_world
              no_options _ rcv_network pulse_output_send eq_refl)
    as (Hrun & Hstop & _).
  split.
  - apply Hrun. intros [| [| i]] Hi; [reflexivity | reflexivity |].
    exfalso. apply (Nat.nlt_0_r i). now apply Nat.succ_lt_mono, Nat.succ_lt_mono.
  - apply (Hstop 2%nat 9%nat).
    + intros [| [| i]] Hi; [reflexivity | reflexivity |].
      exfalso. apply (Nat.nlt_0_r i).
      now apply Nat.succ_lt_mono, Nat.succ_lt_mono.
    + discriminate.
    + repeat constructor.
Defined.

(** C2, as the code has it.  When the selected output backend is
    compiled in, its init function is called exactly once, before any
    call of the loop, and the start goes on exactly when it returns 0.
    What the call is given depends on the backend: PulseAudio's receives
    the target latency, the maximum latency and the stream name; ALSA's
    the target latency and the device name, without the maximum latency;
    the raw sink's receives nothing. *)
Theorem sink_init_call_per_backend :
  forall (cfg : config_h) (w : world) (cmd : cmdline) (tp : list event)
         (l : locals) (st : Z),
    parse_options cfg w cmd = (tp, Val l) ->
    sink_init_status cfg w l = Some st ->
    sink_init_args (sink_init_call l)
    = match output_mode l with
      | Pulseaudio =>
          Some [IntArg (target_latency_ms l); IntArg (max_latency_ms l);
                StrArg (stream_name l)]
      | Alsa => Some [IntArg (target_latency_ms l); StrArg (alsa_device l)]
      | Raw => Some []
      end
    /\ (st = 0 <-> exists t fns, startup cfg w cmd = (t, Val fns))
    /\ forall n,
         filter is_sink_init (fst (main cfg w cmd n)) = [sink_init_call l]
         /\ exists t2,
              fst (main cfg w cmd n)
              = (tp ++ EvSetpriority (-11) :: announce_output l)
                ++ sink_init_call l :: t2
              /\ filter is_loop_call
                   (tp ++ EvSetpriority (-11) :: announce_output l) = [].
Proof.
  intros cfg w cmd tp l st Hp Hst.
  destruct (reports_only_parse_options cfg w cmd) as [Hr _].
  rewrite Hp in Hr. simpl in Hr.
  assert (filter is_loop_call
            (tp ++ EvSetpriority (-11) :: announce_output l) = []) as Hpre.
  { rewrite filter_app, (filter_reports _ _ report_not_loop_call Hr). simpl.
    apply (filter_reports _ _ report_not_loop_call
             (announce_output_reports l)). }
  pose proof (startup_eq _ _ _ _ _ Hp) as Hs. rewrite Hst in Hs.
  split; [| split].
  - unfold sink_init_call. destruct (output_mode l); reflexivity.
  - split.
    + intros ->. simpl in Hs. eauto.
    + intros (t & fns & H). rewrite H in Hs.
      destruct (st =? 0) eqn:E; [now apply Z.eqb_eq | discriminate].
  - intros n. destruct (st =? 0) eqn:E.
    + destruct (main_trace_split _ _ _ _ _ _ n Hs) as (tl & -> & Htl).
      split.
      * rewrite !filter_app, (filter_reports _ _ report_not_sink_init Hr),
          startup_events_sink_init.
        rewrite (filter_loop_calls is_sink_init _ _ _ ltac:(now destruct e)
                   Htl).
        reflexivity.
      * exists (EvStoreSend (send_fn_of (output_mode l))
                  :: announce_receiver l
                  ++ [transport_init_call l;
                      EvStoreRcv (rcv_fn_of (receiver_mode l))]
                  ++ tl).
        split; [| exact Hpre]. unfold startup_events.
        repeat (rewrite <- app_assoc || rewrite <- app_comm_cons); simpl.
        repeat (rewrite <- app_assoc || rewrite <- app_comm_cons); simpl.
        reflexivity.
    + rewrite (main_startup_exited _ _ _ _ _ n Hs). simpl fst. split.
      * rewrite filter_app, (filter_reports _ _ report_not_sink_init Hr).
        simpl.
        rewrite filter_app, (filter_reports _ _ report_not_sink_init
                               (announce_output_reports l)).
        simpl. now rewrite sink_init_call_is_sink_init.
      * exists []. split; [| exact Hpre].
        rewrite <- !app_assoc. reflexivity.
Qed.

(** With [-o alsa] the sink is given the target latency and the device,
    and its init is the one sink init of the run. *)
Lemma sink_init_call_per_backend_witness :
  sink_init_args (EvAlsaInit 50 "default")
  = Some [IntArg 50; StrArg "default"]
  /\ filter is_sink_init
       (fst (main sample_config sample_world
               (options [("o"%char, "alsa")]) 4))
     = [EvAlsaInit 50 "default"].
Proof.
  destruct (sink_init_call_per_backend sample_config sample_world
              (options [("o"%char, "alsa")]) [] _ 0 eq_refl eq_refl)
    as (Hargs & _ & Hn).
  split; [exact Hargs |]. exact (proj1 (Hn 4%nat)).
Defined.

(** C2, as the claim states it, fails for the raw sink and for ALSA: both
    starts below reach the loop, and no call in their traces carries the
    target latency, the maximum latency and a name. *)
Lemma raw_and_alsa_init_lack_max_latency :
  (exists l t fns,
      parse_options sample_config sample_world (options [("o"%char, "raw")])
      = ([], Val l)
      /\ startup sample_config sample_world (options [("o"%char, "raw")])
         = (t, Val fns)
      /\ In EvRawInit t
      /\ existsb (is_contract_init l) t = false)
  /\ (exists l t fns,
         parse_options sample_config sample_world
           (options [("o"%char, "alsa")])
         = ([], Val l)
         /\ startup sample_config sample_world (options [("o"%char, "alsa")])
            = (t, Val fns)
         /\ In (EvAlsaInit 50 "default") t
         /\ existsb (is_contract_init l) t = false).
Proof.
  split; do 3 eexists;
    (split; [reflexivity |]); (split; [reflexivity |]);
    (split; [simpl; tauto | reflexivity]).
Qed.

(** C8.  In every execution that reaches the loop, each of the two
    function pointers is stored exactly once, during the start and
    before any call of the loop; nothing stores to them afterwards, and
    every call of the loop goes through the values stored at the start. *)
Theorem function_pointers_are_set_once_at_startup :
  forall (cfg : config_h) (w : world) (cmd : cmdline) (t0 : list event)
         (r : rcv_fn) (s : send_fn),
    startup cfg w cmd = (t0, Val (r, s)) ->
    filter is_store t0 = [EvStoreSend s; EvStoreRcv r]
    /\ filter is_loop_call t0 = []
    /\ forall n,
         exists tl,
           fst (main cfg w cmd n) = t0 ++ tl
           /\ filter is_store tl = []
           /\ Forall (fun e => e = EvCallRcv r \/ exists d, e = EvCallSend s d)
                tl
           /\ filter is_store (fst (main cfg w cmd n))
              = [EvStoreSend s; EvStoreRcv r].
Proof.
  intros cfg w cmd t0 r s Hs.
  destruct (startup_val_inv _ _ _ _ _ _ Hs) as (tp & l & Hp & Hst & -> & -> & ->).
  destruct (reports_only_parse_options cfg w cmd) as [Hr _].
  rewrite Hp in Hr. simpl in Hr.
  assert (filter is_store (tp ++ startup_events l)
          = [EvStoreSend (send_fn_of (output_mode l));
             EvStoreRcv (rcv_fn_of (receiver_mode l))]) as Hstore.
  { now rewrite filter_app, (filter_reports _ _ report_not_store Hr),
      startup_events_store. }
  split; [exact Hstore | split].
  - now rewrite filter_app, (filter_reports _ _ report_not_loop_call Hr),
      startup_events_no_loop_call.
  - intros n. destruct (main_trace_split _ _ _ _ _ _ n Hs) as (tl & E & Htl).
    exists tl.
    assert (filter is_store tl = []) as Hnil
        by exact (filter_loop_calls is_store _ _ _ ltac:(now destruct e) Htl).
    repeat split; auto.
    rewrite E, filter_app, Hnil, Hstore. reflexivity.
Qed.

(** The default start: the stores are those of [pulse_output_send] and
    [rcv_network], in this order, and three iterations add none. *)
Lemma function_pointers_are_set_once_at_startup_witness :
  filter is_store (fst (main sample_config sample_world no_options 3))
  = [EvStoreSend pulse_output_send; EvStoreRcv rcv_network].
Proof.
  destruct (function_pointers_are_set_once_at_startup sample_config
              sample_world no_options _ rcv_network pulse_output_send eq_refl)
    as (_ & _ & Hn).
  destruct (Hn 3%nat) as (tl & _ & _ & _ & H). exact H.
Defined.

(** ** The option loop, option by option *)

Lemma is_opt_true (c opt : ascii) :
  is_opt (String c EmptyString) opt = true -> opt = c.
Proof.
  unfold is_opt. intros H. apply String.eqb_eq in H. now inversion H.
Qed.

Lemma getopt_loop_app (w : world) (a0 : string) :
  forall pre post l,
    getopt_loop w a0 (pre ++ post) l
    = (l' <- getopt_loop w a0 pre l ;; getopt_loop w a0 post l').
Proof.
  induction pre as [| [opt optarg] pre IH]; intros post l; simpl.
  - unfold bind, ret. simpl. now destruct (getopt_loop w a0 post l).
  - destruct (handle_opt w a0 l opt optarg) as [t [l1 | s]]; simpl;
      [| reflexivity].
    rewrite IH.
    destruct (getopt_loop w a0 pre l1) as [t1 [l2 | s]]; simpl.
    + destruct (getopt_loop w a0 post l2) as [t2 r2]. now rewrite app_assoc.
    + reflexivity.
Qed.


Lemma parse_options_val_inv (cfg : config_h) (w : world) (cmd : cmdline)
  (tp : list event) (l : locals) :
  parse_options cfg w cmd = (tp, Val l) ->
  getopt_loop w (arg0 cmd) (opts cmd) (initial_locals cfg) = (tp, Val l)
  /\ leftover cmd = false.
Proof.
  unfold parse_options. intros H.
  apply bind_val_inv in H as (t & l1 & t' & Hg & Hk & ->).
  destruct (leftover cmd); [discriminate |].
  inversion Hk; subst. now rewrite app_nil_r.
Qed.

Lemma parse_options_getopt_exited (cfg : config_h) (w : world)
  (cmd : cmdline) (t : list event) (s : Z) :
  getopt_loop w (arg0 cmd) (opts cmd) (initial_locals cfg) = (t, Exited s) ->
  parse_options cfg w cmd = (t, Exited s).
Proof.
  intros H. unfold parse_options. now rewrite (bind_exited _ _ _ _ H).
Qed.






(** Case analysis on a call of [handle_opt] that returns. *)
Ltac handle_opt_returns H :=
  unfold handle_opt in H;
  repeat match type of H with
         | (if is_opt ?c ?o then _ else _) = _ =>
             let E := fresh "Eopt" in destruct (is_opt c o) eqn:E
         end;
  cbv zeta in H;
  repeat match type of H with
         | (if ?b then _ else _) = _ =>
             let E := fresh "Ecase" in destruct b eqn:E
         end;
  try (unfold show_usage, bind, emit, exit in H; simpl in H; discriminate H);
  try (apply bind_val_inv in H as (? & ? & ? & _ & H & _));
  inversion H; subst; clear H.

Lemma handle_opt_unrecognised (w : world) (a0 : string) (l : locals)
  (v : string) :
  recognised_output v = false ->
  handle_opt w a0 l "o" v = ([], Val (set_output (Some v) l)).
Proof.
  unfold recognised_output. intros H.
  apply orb_false_iff in H as [H Hraw].
  apply orb_false_iff in H as [Hpulse Halsa].
  unfold handle_opt. simpl. now rewrite Hpulse, Halsa, Hraw.
Qed.

Lemma handle_opt_output_mode (w : world) (a0 : string) (l l' : locals)
  (opt : ascii) (optarg : string) (t : list event) :
  handle_opt w a0 l opt optarg = (t, Val l') ->
  (is_opt "o" opt = true -> recognised_output optarg = false) ->
  output_mode l' = output_mode l.
Proof.
  intros H Ho. handle_opt_returns H; try reflexivity;
    specialize (Ho eq_refl); unfold recognised_output in Ho;
    repeat match goal with
           | E : String.eqb _ _ = true |- _ => rewrite E in Ho
           end;
    simpl in Ho; try rewrite orb_true_r in Ho; discriminate.
Qed.

Lemma getopt_loop_output_mode (w : world) (a0 : string) :
  forall os l t l',
    (forall v, In ("o"%char, v) os -> recognised_output v = false) ->
    getopt_loop w a0 os l = (t, Val l') ->
    output_mode l' = output_mode l.
Proof.
  induction os as [| [opt optarg] os IH]; intros l t l' Hun H; simpl in H.
  - now inversion H.
  - apply bind_val_inv in H as (t1 & l1 & t2 & Hh & Hg & _).
    rewrite (IH l1 t2 l'); [| intros v Hv; apply Hun; now right | exact Hg].
    apply (handle_opt_output_mode _ _ _ _ _ _ _ Hh).
    intros Ho. apply is_opt_true in Ho. subst opt. apply Hun. now left.
Qed.

Lemma handle_opt_shmem_has_device (w : world) (a0 : string) (l l' : locals)
  (opt : ascii) (optarg : string) (t : list event) :
  handle_opt w a0 l opt optarg = (t, Val l') ->
  shmem_has_device l -> shmem_has_device l'.
Proof.
  intros H Hl. unfold shmem_has_device in *.
  handle_opt_returns H; simpl; try exact Hl; try discriminate; eauto.
Qed.

Lemma getopt_loop_shmem_has_device (w : world) (a0 : string) :
  forall os l t l',
    getopt_loop w a0 os l = (t, Val l') ->
    shmem_has_device l -> shmem_has_device l'.
Proof.
  induction os as [| [opt optarg] os IH]; intros l t l' H Hl; simpl in H.
  - now inversion H; subst.
  - apply bind_val_inv in H as (t1 & l1 & t2 & Hh & Hg & _).
    apply (IH l1 t2 l' Hg).
    exact (handle_opt_shmem_has_device _ _ _ _ _ _ _ Hh Hl).
Qed.

(** ** [output] does not matter *)

Lemma same_but_output_bind (m1 m2 : M locals) (k1 k2 : locals -> M locals) :
  same_but_output m1 m2 ->
  (forall l1 l2, forget_output l1 = forget_output l2 ->
                 same_but_output (k1 l1) (k2 l2)) ->
  same_but_output (bind m1 k1) (bind m2 k2).
Proof.
  unfold same_but_output.
  destruct m1 as [t1 [l1 | s1]], m2 as [t2 [l2 | s2]]; simpl;
    intros [-> H] Hk; try contradiction.
  - destruct (Hk l1 l2 H) as [Et Er].
    destruct (k1 l1) as [u1 r1], (k2 l2) as [u2 r2]. simpl in *.
    now subst.
  - auto.
Qed.

Lemma bind_same_but_output {B : Type} (m1 m2 : M locals)
  (k1 k2 : locals -> M B) :
  same_but_output m1 m2 ->
  (forall l1 l2, forget_output l1 = forget_output l2 -> k1 l1 = k2 l2) ->
  bind m1 k1 = bind m2 k2.
Proof.
  unfold same_but_output.
  destruct m1 as [t1 [l1 | s1]], m2 as [t2 [l2 | s2]]; simpl;
    intros [-> H] Hk; try contradiction.
  - now rewrite (Hk l1 l2 H).
  - now subst.
Qed.

Lemma handle_opt_same_but_output (w : world) (a0 : string) (l1 l2 : locals)
  (opt : ascii) (optarg : string) :
  forget_output l1 = forget_output l2 ->
  same_but_output (handle_opt w a0 l1 opt optarg)
                  (handle_opt w a0 l2 opt optarg).
Proof.
  destruct l1, l2. unfold forget_output, set_output. simpl.
  intros H. inversion H; subst. unfold handle_opt, same_but_output.
  repeat match goal with
         | |- context [if is_opt ?c ?o then _ else _] => destruct (is_opt c o)
         end;
    cbn;
    repeat match goal with
           | |- context [if ?b then _ else _] => destruct b
           | |- context [get_interface ?w ?a] =>
               destruct (get_interface w a) as [? [? | ?]]
           end;
    cbn; auto.
Qed.

Lemma init_output_forget (cfg : config_h) (w : world) (a0 : string)
  (l1 l2 : locals) :
  forget_output l1 = forget_output l2 ->
  init_output cfg w a0 l1 = init_output cfg w a0 l2.
Proof.
  destruct l1, l2. unfold forget_output, set_output. simpl.
  intros H. now inversion H; subst.
Qed.

Lemma init_receiver_forget (l1 l2 : locals) :
  forget_output l1 = forget_output l2 -> init_receiver l1 = init_receiver l2.
Proof.
  destruct l1, l2. unfold forget_output, set_output. simpl.
  intros H. now inversion H; subst.
Qed.

Lemma getopt_loop_without_o (w : world) (a0 : string) :
  forall os l1 l2,
    (forall v, In ("o"%char, v) os -> recognised_output v = false) ->
    forget_output l1 = forget_output l2 ->
    same_but_output (getopt_loop w a0 os l1)
                    (getopt_loop w a0 (without_o os) l2).
Proof.
  induction os as [| [opt optarg] os IH]; intros l1 l2 Hun Hl.
  - simpl. split; [reflexivity | exact Hl].
  - assert (forall v, In ("o"%char, v) os -> recognised_output v = false)
      as Hun' by (intros v Hv; apply Hun; now right).
    unfold without_o. simpl filter. unfold is_o at 1. simpl fst.
    destruct (is_opt "o" opt) eqn:Eo; simpl negb; cbv iota.
    + apply is_opt_true in Eo. subst opt.
      simpl getopt_loop.
      rewrite (handle_opt_unrecognised w a0 l1 optarg (Hun _ (or_introl eq_refl))).
      unfold bind.
      specialize (IH (set_output (Some optarg) l1) l2 Hun').
      destruct (getopt_loop w a0 os (set_output (Some optarg) l1)) as [u r].
      simpl app. apply IH. rewrite <- Hl. now destruct l1.
    + simpl getopt_loop. apply same_but_output_bind.
      * now apply handle_opt_same_but_output.
      * intros l1' l2' Hl'. now apply IH.
Qed.

(** C7, as the code has it.  After option parsing the transport
    initialised is never the one that was not selected, and never more
    than one: none when the output backend is not compiled in or its
    init fails; once the output backend is initialised (its init returned
    0), exactly the selected one:
    [init_shmem] with the device path in shared-memory mode, otherwise
    [init_network] with the mode, interface, port and group; and every
    receive call of the loop goes to its receive function.  In
    shared-memory mode the device path is never the null pointer. *)
Theorem selected_transport_is_the_only_one_initialised :
  forall (cfg : config_h) (w : world) (cmd : cmdline) (tp : list event)
         (l : locals),
    parse_options cfg w cmd = (tp, Val l) ->
    transport_init_call l
    = (match receiver_mode l with
       | SharedMem => EvInitShmem (ivshmem_device l)
       | Unicast =>
           EvInitNetwork Unicast (interface l) (port l) (multicast_group l)
       | Multicast =>
           EvInitNetwork Multicast (interface l) (port l) (multicast_group l)
       end)
    /\ (forall n,
           filter is_transport_init (fst (main cfg w cmd n))
           = match sink_init_status cfg w l with
             | Some 0 => [transport_init_call l]
             | _ => []
             end)
    /\ (sink_init_status cfg w l = Some 0 ->
        exists t0,
          startup cfg w cmd
          = (t0, Val (rcv_fn_of (receiver_mode l),
                      send_fn_of (output_mode l)))
          /\ forall n,
               filter is_transport_init (fst (main cfg w cmd n))
               = [transport_init_call l]
               /\ forall f, In (EvCallRcv f) (fst (main cfg w cmd n)) ->
                            f = rcv_fn_of (receiver_mode l))
    /\ (receiver_mode l = SharedMem ->
        exists d, transport_init_call l = EvInitShmem (Some d)).
Proof.
  intros cfg w cmd tp l Hp.
  destruct (reports_only_parse_options cfg w cmd) as [Hr _].
  rewrite Hp in Hr. simpl in Hr.
  pose proof (startup_eq _ _ _ _ _ Hp) as Hs.
  assert (forall n, sink_init_status cfg w l = Some 0 ->
            filter is_transport_init (fst (main cfg w cmd n))
            = [transport_init_call l]
            /\ forall f, In (EvCallRcv f) (fst (main cfg w cmd n)) ->
                         f = rcv_fn_of (receiver_mode l)) as Hok.
  { intros n Hst. rewrite Hst in Hs. simpl in Hs.
    destruct (main_trace_split _ _ _ _ _ _ n Hs) as (tl & -> & Htl). split.
    - rewrite !filter_app,
        (filter_reports _ _ report_not_transport_init Hr),
        startup_events_transport_init.
      now rewrite (filter_loop_calls is_transport_init _ _ _
                     ltac:(now destruct e) Htl).
    - intros f Hin. apply in_app_or in Hin as [Hin | Hin].
      + apply in_app_or in Hin as [Hin | Hin].
        * pose proof (filter_nil_not_in _ _ _
                        (filter_reports _ _ report_not_loop_call Hr) Hin).
          discriminate.
        * pose proof (filter_nil_not_in _ _ _
                        (startup_events_no_loop_call l) Hin).
          discriminate.
      + rewrite Forall_forall in Htl.
        destruct (Htl _ Hin) as [E | [d E]]; congruence. }
  split; [| split; [| split]].
  - unfold transport_init_call. destruct (receiver_mode l); reflexivity.
  - intros n. destruct (sink_init_status cfg w l) as [st |] eqn:Hst.
    + destruct (st =? 0) eqn:E.
      * apply Z.eqb_eq in E. subst st. now apply Hok.
      * assert (filter is_transport_init (fst (main cfg w cmd n)) = [])
          as ->.
        { rewrite (main_startup_exited _ _ _ _ _ n Hs). simpl fst.
          rewrite filter_app,
            (filter_reports _ _ report_not_transport_init Hr). simpl.
          rewrite filter_app,
            (filter_reports _ _ report_not_transport_init
               (announce_output_reports l)).
          unfold sink_init_call. destruct (output_mode l); reflexivity. }
        destruct st; [discriminate E | reflexivity | reflexivity].
    + rewrite (main_startup_exited _ _ _ _ _ n Hs). simpl fst.
      rewrite filter_app,
        (filter_reports _ _ report_not_transport_init Hr).
      unfold unsupported_output. reflexivity.
  - intros Hst. pose proof Hs as Hs'. rewrite Hst in Hs'. simpl in Hs'.
    eexists. split; [exact Hs' |]. intros n. now apply Hok.
  - intros Hm. destruct (parse_options_val_inv _ _ _ _ _ Hp) as [Hg _].
    destruct (getopt_loop_shmem_has_device _ _ _ _ _ _ Hg) as [d Hd];
      [discriminate | exact Hm |].
    exists d. unfold transport_init_call. now rewrite Hm, Hd.
Qed.

(** [-u] then [-m]: shared memory is selected; [init_shmem] receives the
    path and no network transport is set up. *)
Lemma selected_transport_is_the_only_one_initialised_witness :
  filter is_transport_init
    (fst (main sample_config sample_world
            (options [("u"%char, ""); ("m"%char, "/dev/shmem")]) 3))
  = [EvInitShmem (Some "/dev/shmem")].
Proof.
  destruct (selected_transport_is_the_only_one_initialised sample_config
              sample_world
              (options [("u"%char, ""); ("m"%char, "/dev/shmem")])
              [] _ eq_refl)
    as (_ & _ & Hok & _).
  destruct (Hok eq_refl) as (t0 & _ & Hn). exact (proj1 (Hn 3%nat)).
Defined.


(** C7, as the claim states it, fails when the output backend cannot be
    initialised.  With [-m /dev/shmem] and no PulseAudio server, option
    parsing is over, shared memory is selected, and the process ends
    with status 1 without any transport initialised. *)
Lemma no_transport_after_failed_sink_init :
  (exists l,
      parse_options sample_config pulse_down_world
        (options [("m"%char, "/dev/shmem")])
      = ([], Val l)
      /\ receiver_mode l = SharedMem)
  /\ main sample_config pulse_down_world
       (options [("m"%char, "/dev/shmem")]) 7
     = ([EvSetpriority (-11); EvPulseInit 50 200 "Audio"], Exited 1)
  /\ filter is_transport_init
       (fst (main sample_config pulse_down_world
               (options [("m"%char, "/dev/shmem")]) 7))
     = [].
Proof.
  split; [eexists; split; reflexivity |]. split; reflexivity.
Qed.

(** * Properties of the pipeline of the specification *)

Import Validation Delivery.

(** ** Validation *)

Lemma supported_bits_spec (fmt : AudioFormat) :
  supported_bits fmt = true <-> In (sample_bits fmt) [8; 16; 24; 32].
Proof.
  unfold supported_bits. rewrite !orb_true_iff, !Z.eqb_eq. simpl.
  intuition congruence.
Qed.

Lemma supported_channels_spec (fmt : AudioFormat) :
  supported_channels fmt = true <-> 1 <= channels fmt <= 255.
Proof.
  unfold supported_channels. rewrite andb_true_iff, !Z.leb_le. tauto.
Qed.

Lemma frame_size_positive (fmt : AudioFormat) :
  1 <= channels fmt <= 255 -> In (sample_bits fmt) [8; 16; 24; 32] ->
  0 < frame_size fmt
  /\ frame_size fmt = channels fmt * sample_bits fmt / 8.
Proof.
  unfold frame_size. intros Hc Hb. simpl in Hb.
  destruct Hb as [E | [E | [E | [E | []]]]]; rewrite <- E.
  - change (8 / 8) with 1. split; [lia |].
    now rewrite Z.div_mul, Z.mul_1_r.
  - change (16 / 8) with 2. split; [lia |].
    replace (channels fmt * 16) with (channels fmt * 2 * 8) by lia.
    now rewrite Z.div_mul.
  - change (24 / 8) with 3. split; [lia |].
    replace (channels fmt * 24) with (channels fmt * 3 * 8) by lia.
    now rewrite Z.div_mul.
  - change (32 / 8) with 4. split; [lia |].
    replace (channels fmt * 32) with (channels fmt * 4 * 8) by lia.
    now rewrite Z.div_mul.
Qed.

Lemma accepted_iff_well_formed (f : Frame) :
  accepted f = true <-> well_formed f.
Proof.
  unfold accepted, validate, well_formed.
  rewrite !andb_true_iff, supported_channels_spec, supported_bits_spec,
    Z.eqb_eq.
  split.
  - intros [[Hc Hb] Hm]. repeat split; try tauto.
    destruct (frame_size_positive _ Hc Hb) as [Hpos _].
    apply Z.mod_divide; [lia | exact Hm].
  - intros (Hd & Hc & Hb). repeat split; try tauto.
    destruct (frame_size_positive _ Hc Hb) as [Hpos _].
    apply Z.mod_divide; [lia | exact Hd].
Qed.

Lemma receive_downstream :
  forall incoming f rest,
    receive incoming = Some (f, rest) ->
    accepted f = true /\ downstream incoming = f :: downstream rest.
Proof.
  unfold downstream.
  induction incoming as [| g incoming IH]; intros f rest H; simpl in *.
  - discriminate.
  - destruct (accepted g) eqn:E.
    + inversion H; subst. auto.
    + now apply IH.
Qed.

(** C4.  The validation helper accepts a Frame exactly when its payload
    length is a multiple of [channels * sample_bits/8], its channel count
    is in [1,255] and its sample size is 8, 16, 24 or 32 bits.  What a
    call of [receive] returns is accepted, and a Frame that violates one
    of the conditions is never among the Frames passed downstream. *)
Theorem accepted_frames_are_well_formed :
  (forall f,
      accepted f = true <->
      (frame_size (format f) | payload_len f)
      /\ 1 <= channels (format f) <= 255
      /\ In (sample_bits (format f)) [8; 16; 24; 32])
  /\ (forall f,
         accepted f = true ->
         payload_len f
           mod (channels (format f) * sample_bits (format f) / 8) = 0)
  /\ (forall incoming f rest,
         receive incoming = Some (f, rest) ->
         well_formed f /\ downstream incoming = f :: downstream rest)
  /\ (forall incoming f,
         In f (downstream incoming) -> In f incoming /\ well_formed f)
  /\ (forall incoming f,
         ~ well_formed f ->
         ~ In f (downstream incoming)
         /\ forall rest, receive incoming <> Some (f, rest)).
Proof.
  split; [exact accepted_iff_well_formed |].
  split; [| split; [| split]].
  - intros f Ha. apply accepted_iff_well_formed in Ha as (Hd & Hc & Hb).
    destruct (frame_size_positive _ Hc Hb) as [Hpos <-].
    apply Z.mod_divide; [lia | exact Hd].
  - intros incoming f rest H.
    destruct (receive_downstream _ _ _ H) as [Ha Hd].
    split; [now apply accepted_iff_well_formed | exact Hd].
  - intros incoming f Hin. unfold downstream in Hin.
    apply filter_In in Hin as [Hin Ha].
    split; [exact Hin | now apply accepted_iff_well_formed].
  - intros incoming f Hbad. split.
    + intros Hin. unfold downstream in Hin.
      apply filter_In in Hin as [_ Ha].
      now apply Hbad, accepted_iff_well_formed.
    + intros rest H. destruct (receive_downstream _ _ _ H) as [Ha _].
      now apply Hbad, accepted_iff_well_formed.
Qed.

(** The misaligned datagram of section 8 is dropped; the Frame behind
    it is what [receive] returns. *)
Lemma accepted_frames_are_well_formed_witness :
  well_formed aligned_frame
  /\ downstream [misaligned_frame; aligned_frame] = [aligned_frame].
Proof.
  destruct accepted_frames_are_well_formed as (_ & _ & Hreceive & _).
  exact (Hreceive [misaligned_frame; aligned_frame] aligned_frame []
           eq_refl).
Defined.

(** ** Delivery: the queue and the latency bound *)

Lemma format_eqb_eq (a b : AudioFormat) : format_eqb a b = true <-> a = b.
Proof.
  unfold format_eqb. rewrite !andb_true_iff, !Z.eqb_eq. split.
  - intros [[[H1 H2] H3] H4]. destruct a, b. simpl in *. congruence.
  - intros ->. auto.
Qed.

Lemma payload_len_nonneg (f : Frame) : 0 <= payload_len f.
Proof. unfold payload_len. lia. Qed.

Lemma queued_bytes_nonneg (q : list Frame) : 0 <= queued_bytes q.
Proof.
  induction q as [| f q IH]; simpl; [lia |].
  pose proof (payload_len_nonneg f). lia.
Qed.











(** ** Delivery: format changes *)

Lemma segmented_app (c : option AudioFormat) (e1 e2 : list sink_event) :
  segmented c (e1 ++ e2)
  = (segmented c e1 && segmented (sink_format c e1) e2)%bool.
Proof.
  revert c. induction e1 as [| [fmt | f] e1 IH]; intros c; simpl.
  - reflexivity.
  - apply IH.
  - destruct c as [c |]; [| apply IH].
    rewrite IH. now rewrite andb_assoc.
Qed.

Lemma sink_format_app (c : option AudioFormat) (e1 e2 : list sink_event) :
  sink_format c (e1 ++ e2) = sink_format (sink_format c e1) e2.
Proof.
  revert c. induction e1 as [| [fmt | f] e1 IH]; intros c; simpl; auto.
Qed.

Lemma reconfigurations_app (e1 e2 : list sink_event) :
  reconfigurations (e1 ++ e2)
  = (reconfigurations e1 + reconfigurations e2)%nat.
Proof.
  unfold reconfigurations. now rewrite filter_app, length_app.
Qed.

Lemma drop_oldest_incl (th : thresholds) (fmt : AudioFormat) :
  forall q g, In g (drop_oldest th fmt q) -> In g q.
Proof.
  induction q as [| f q IH]; intros g H; simpl in *; [exact H |].
  destruct (within fmt (f :: q) (target_ms th)); [exact H |].
  right. now apply IH.
Qed.

Lemma enqueue_incl (th : thresholds) (fmt : AudioFormat) (q : list Frame)
  (f g : Frame) :
  In g (enqueue th fmt q f) -> In g (q ++ [f]).
Proof.
  unfold enqueue. destruct (within fmt (q ++ [f]) (max_ms th)); [auto |].
  apply drop_oldest_incl.
Qed.

(** Playing a queue of one format to a Sink that has this format, or
    none yet. *)
Lemma play_uniform (fmt : AudioFormat) :
  forall q c,
    Forall (fun g => Some (format g) = Some fmt) q ->
    c = None \/ c = Some fmt ->
    segmented c (map Play q) = true
    /\ (sink_format c (map Play q) = None
        \/ sink_format c (map Play q) = Some fmt)
    /\ reconfigurations (map Play q) = O.
Proof.
  induction q as [| g q IH]; intros c Hq Hc; simpl.
  - auto.
  - inversion Hq as [| ? ? Hg Hq']; subst. inversion Hg as [Eg].
    destruct (IH (Some fmt) Hq' (or_intror eq_refl)) as (Hs & Hf & Hr).
    destruct Hc as [-> | ->]; rewrite Eg.
    + repeat split; auto.
    + assert (format_eqb fmt fmt = true) as -> by now apply format_eqb_eq.
      repeat split; auto.
Qed.

Lemma flush_uniform (th : thresholds) (fmt : AudioFormat)
  (q : list Frame) (c : option AudioFormat) :
  Forall (fun g => Some (format g) = Some fmt) q ->
  c = None \/ c = Some fmt ->
  segmented c (flush th q) = true
  /\ (sink_format c (flush th q) = None
      \/ sink_format c (flush th q) = Some fmt)
  /\ reconfigurations (flush th q) = O.
Proof.
  intros Hq Hc. unfold flush. destruct (flush_plays th).
  - now apply play_uniform.
  - simpl. destruct Hc as [-> | ->]; auto.
Qed.

Lemma enqueue_uniform (th : thresholds) (q : list Frame) (f : Frame) :
  Forall (fun g => Some (format g) = Some (format f)) q ->
  Forall (fun g => Some (format g) = Some (format f))
         (enqueue th (format f) q f).
Proof.
  intros Hq. apply Forall_forall. intros g Hg.
  apply enqueue_incl, in_app_or in Hg as [Hg | [<- | []]]; [| reflexivity].
  rewrite Forall_forall in Hq. now apply Hq.
Qed.

Lemma run_in_step (th : thresholds) :
  forall ins st c,
    in_step st c ->
    segmented c (snd (run th st ins)) = true
    /\ in_step (fst (run th st ins)) (sink_format c (snd (run th st ins)))
    /\ reconfigurations (snd (run th st ins))
       = format_changes (current st) ins.
Proof.
  induction ins as [| i ins IH]; intros st c [Hu Hc]; simpl.
  - repeat split; auto.
  - assert (forall st1 e1,
               step th st i = (st1, e1) ->
               segmented c e1 = true
               /\ in_step st1 (sink_format c e1)
               /\ (reconfigurations e1 + format_changes (current st1) ins
                   = format_changes (current st) (i :: ins))%nat) as Hstep.
    { intros st1 e1 E. destruct i as [f |]; simpl in E.
      - unfold on_frame in E. unfold uniform in Hu.
        destruct (current st) as [old |] eqn:Ecur.
        + destruct (format_eqb old (format f)) eqn:Ef;
            inversion E; subst; clear E; simpl.
          * rewrite Ef. apply format_eqb_eq in Ef. subst old.
            repeat split; auto. apply enqueue_uniform. exact Hu.
          * rewrite Ef.
            destruct (flush_uniform th old (queue st) c Hu Hc)
              as (Hs & Hf & Hr).
            rewrite segmented_app, sink_format_app, reconfigurations_app, Hs,
              Hr. simpl.
            repeat split; auto;
              try (unfold uniform; simpl; now apply enqueue_uniform);
              try now right.
        + inversion E; subst; clear E; simpl.
          destruct Hc as [-> | ->]; repeat split; auto;
            unfold uniform; simpl; now apply enqueue_uniform.
      - unfold on_pull in E. unfold uniform in Hu.
        destruct (queue st) as [| f q] eqn:Eq;
          inversion E; subst; clear E; simpl.
        + repeat split; auto. unfold uniform. now rewrite Eq.
        + inversion Hu as [| ? ? Hf Hq]; subst.
          assert (format_eqb (format f) (format f) = true) as Erefl
              by now apply format_eqb_eq.
          destruct Hc as [-> | ->].
          * split; [reflexivity |]. split; [| reflexivity].
            split; [exact Hq | now right].
          * rewrite <- Hf in Hq |- *. simpl. rewrite Erefl.
            split; [reflexivity |]. split; [| reflexivity].
            split; [exact Hq | now right]. }
    destruct (step th st i) as [st1 e1].
    destruct (Hstep st1 e1 eq_refl) as (Hs1 & Hin1 & Hr1).
    destruct (IH st1 (sink_format c e1) Hin1) as (Hs2 & Hin2 & Hr2).
    destruct (run th st1 ins) as [st2 e2]. simpl in *.
    rewrite segmented_app, sink_format_app, reconfigurations_app, Hs1, Hs2,
      Hr2.
    repeat split; auto. apply Hin2. apply Hin2.
Qed.

Lemma reconfigurations_play (q : list Frame) :
  reconfigurations (map Play q) = O.
Proof.
  unfold reconfigurations. induction q as [| g q IH]; simpl; auto.
Qed.

(** C6.  When the format of an incoming Frame differs from the previous
    Frame's, Delivery drains the whole queue, notifies the Sink of one
    reconfiguration, and only then queues the Frame: the queue then holds
    nothing but that Frame, and what the drain hands to the Sink comes
    from the old queue.  A Frame of the same format, or the first Frame,
    brings no reconfiguration.  Over any run, no Frame reaches the Sink
    in a format other than the one the Sink is configured for, the queue
    never mixes formats, and the Sink sees as many reconfigurations as
    there are format changes in the input. *)
Theorem format_change_flushes_before_new_format :
  forall (th : thresholds),
    (forall st old f,
        current st = Some old -> old <> format f ->
        on_frame th st f
        = ({| queue := enqueue th (format f) [] f;
              current := Some (format f) |},
           flush th (queue st) ++ [Reconfigure (format f)])
        /\ (forall g, In g (queue (fst (on_frame th st f))) -> g = f)
        /\ reconfigurations (snd (on_frame th st f)) = 1%nat
        /\ (forall g, In (Play g) (snd (on_frame th st f)) ->
                      In g (queue st)))
    /\ (forall st f,
           current st = None \/ current st = Some (format f) ->
           snd (on_frame th st f) = [])
    /\ (forall ins,
           segmented None (snd (run th initial ins)) = true
           /\ uniform (fst (run th initial ins))
           /\ reconfigurations (snd (run th initial ins))
              = format_changes None ins).
Proof.
  intros th. split; [| split].
  - intros st old f Hcur Hne.
    assert (format_eqb old (format f) = false) as Ef.
    { destruct (format_eqb old (format f)) eqn:E; [| reflexivity].
      now apply format_eqb_eq in E. }
    assert (on_frame th st f
            = ({| queue := enqueue th (format f) [] f;
                  current := Some (format f) |},
               flush th (queue st) ++ [Reconfigure (format f)])) as Eon.
    { unfold on_frame. now rewrite Hcur, Ef. }
    rewrite Eon. simpl. split; [reflexivity |]. split; [| split].
    + intros g Hg. apply enqueue_incl in Hg. simpl in Hg.
      destruct Hg as [<- | []]. reflexivity.
    + rewrite reconfigurations_app. unfold flush.
      destruct (flush_plays th); [| reflexivity].
      now rewrite reconfigurations_play.
    + intros g Hg. apply in_app_or in Hg as [Hg | [Hg | []]];
        [| discriminate].
      unfold flush in Hg. destruct (flush_plays th); [| destruct Hg].
      apply in_map_iff in Hg as (g' & E & Hin). now inversion E; subst.
  - intros st f Hcur. unfold on_frame.
    destruct Hcur as [-> | ->]; [reflexivity |].
    assert (format_eqb (format f) (format f) = true) as ->
        by now apply format_eqb_eq.
    reflexivity.
  - intros ins.
    destruct (run_in_step th ins initial None) as (Hs & [Hu _] & Hr).
    + split; [constructor | now left].
    + auto.
Qed.

(** The format change scenario of section 8: Frames of format A, then
    of format B.  The Sink observes one reconfiguration, and every Frame
    of format A before it. *)
Lemma format_change_flushes_before_new_format_witness :
  reconfigurations
    (snd (run default_thresholds initial format_change_scenario)) = 1%nat
  /\ snd (on_frame default_thresholds
            {| queue := [chunk format_A 8]; current := Some format_A |}
            (chunk format_B 4))
     = [Play (chunk format_A 8); Reconfigure format_B].
Proof.
  destruct (format_change_flushes_before_new_format default_thresholds)
    as (Hchange & _ & Hrun).
  split.
  - destruct (Hrun format_change_scenario) as (_ & _ & Hr). exact Hr.
  - destruct (Hchange
                {| queue := [chunk format_A 8]; current := Some format_A |}
                format_A (chunk format_B 4) eq_refl
                ltac:(discriminate)) as (Eon & _).
    rewrite Eon. reflexivity.
Defined.

(** * Further properties of main *)

(** ** The monad, continued *)

Lemma bind_assoc {A B C : Type} (m : M A) (k : A -> M B) (h : B -> M C) :
  bind (bind m k) h = bind m (fun a => bind (k a) h).
Proof.
  destruct m as [t [a | s]]; simpl; [| reflexivity].
  destruct (k a) as [t1 [b | s]]; simpl; [| reflexivity].
  destruct (h b) as [t2 r]. now rewrite app_assoc.
Qed.

Lemma bind_ret_l {A B : Type} (a : A) (k : A -> M B) : bind (ret a) k = k a.
Proof. unfold bind, ret. simpl. now destruct (k a). Qed.

Lemma bind_ext {A B : Type} (m : M A) (k k' : A -> M B) :
  (forall a, k a = k' a) -> bind m k = bind m k'.
Proof.
  intros H. destruct m as [t [a | s]]; simpl; [| reflexivity].
  now rewrite H.
Qed.

Lemma main_after_options (cfg : config_h) (w : world) (cmd : cmdline)
  (n : nat) :
  main cfg w cmd n
  = (l <- parse_options cfg w cmd ;; after_options cfg w (arg0 cmd) l n).
Proof.
  unfold main, startup. rewrite bind_assoc. apply bind_ext. intros l.
  unfold after_options.
  rewrite bind_assoc. apply bind_ext. intros _.
  rewrite bind_assoc. apply bind_ext. intros s.
  rewrite bind_assoc. apply bind_ext. intros r.
  now rewrite bind_ret_l.
Qed.

(** ** get_interface *)

Lemma list_interfaces_eq (w : world) (ni : list string) :
  list_interfaces w ni = (interface_lines w ni, Val tt).
Proof.
  induction ni as [| name ni IH]; simpl; [reflexivity |].
  rewrite IH. unfold bind, emit, ret.
  destruct (w_ioctl_SIOCGIFADDR w name); reflexivity.
Qed.

Lemma iface_error_exit_eq {A : Type} (w : world) :
  @iface_error_exit A w
  = (EvStderr "Available interfaces:" :: interface_lines w (w_if_nameindex w),
     Exited 1).
Proof.
  unfold iface_error_exit. rewrite list_interfaces_eq.
  unfold bind, emit, exit. simpl. now rewrite app_nil_r.
Qed.

(** X1.  [get_interface] returns, and then without a word, in two cases
    only: [inet_addr] parses the name, and the result is that address;
    or it does not, the name is shorter than [IFNAMSIZ], and the
    SIOCGIFADDR ioctl gives the address of the interface of that name. *)
Theorem get_interface_returns :
  forall (w : world) (name : string) (t : list event) (a : Z),
    get_interface w name = (t, Val a) <->
    t = []
    /\ (w_inet_addr w name <> INADDR_NONE /\ a = w_inet_addr w name
        \/ w_inet_addr w name = INADDR_NONE
           /\ Z.of_nat (String.length name) < IFNAMSIZ
           /\ w_ioctl_SIOCGIFADDR w name = Some a).
Proof.
  intros w name t a. unfold get_interface.
  destruct (w_inet_addr w name =? INADDR_NONE) eqn:Ea; simpl negb; cbv iota.
  - apply Z.eqb_eq in Ea.
    destruct (IFNAMSIZ <=? Z.of_nat (String.length name)) eqn:El.
    + rewrite iface_error_exit_eq. apply Z.leb_le in El. split.
      * discriminate.
      * intros [_ [[H _] | (_ & H & _)]]; [contradiction | lia].
    + apply Z.leb_gt in El.
      destruct (w_ioctl_SIOCGIFADDR w name) as [a' |] eqn:Ei.
      * split.
        -- intros H. inversion H; subst. split; [reflexivity |]. right. auto.
        -- intros [-> [[H _] | (_ & _ & H)]]; [contradiction |].
           now inversion H.
      * rewrite iface_error_exit_eq. split.
        -- discriminate.
        -- intros [_ [[H _] | (_ & _ & H)]]; [contradiction | discriminate].
  - apply Z.eqb_neq in Ea. split.
    + intros H. inversion H; subst. split; [reflexivity |]. left. auto.
    + intros [-> [[_ ->] | [H _]]]; [reflexivity | contradiction].
Qed.

(** In the environment with eth0, both "127.0.0.1" and "eth0" resolve. *)
Lemma get_interface_returns_witness :
  get_interface eth0_world "127.0.0.1" = ([], Val 0x0100007F)
  /\ get_interface eth0_world "eth0" = ([], Val 0x0500000A).
Proof.
  split.
  - apply (proj2 (get_interface_returns eth0_world "127.0.0.1" [] _)).
    split; [reflexivity |]. left. split; [discriminate | reflexivity].
  - apply (proj2 (get_interface_returns eth0_world "eth0" [] _)).
    split; [reflexivity |]. right.
    split; [reflexivity |]. split; reflexivity.
Defined.

(** X2.  When [inet_addr] does not parse the name, a name of
    [IFNAMSIZ] characters or more, or one for which the ioctl fails,
    makes [get_interface] end the process with status 1 after two lines
    and the list of the interfaces that have an address: "Too long
    interface name" for a long name, whatever the ioctl would answer,
    "Invalid interface" otherwise. *)
Theorem get_interface_failure :
  forall (w : world) (name : string),
    w_inet_addr w name = INADDR_NONE ->
    IFNAMSIZ <= Z.of_nat (String.length name)
    \/ w_ioctl_SIOCGIFADDR w name = None ->
    get_interface w name
    = (EvStderr (String.append
                   (if IFNAMSIZ <=? Z.of_nat (String.length name)
                    then "Too long interface name: "
                    else "Invalid interface: ") name)
         :: EvStderr "Available interfaces:"
         :: interface_lines w (w_if_nameindex w),
       Exited 1).
Proof.
  intros w name Ha Hbad. unfold get_interface.
  rewrite Ha. simpl negb. cbv iota.
  destruct (IFNAMSIZ <=? Z.of_nat (String.length name)) eqn:El.
  - now rewrite iface_error_exit_eq.
  - apply Z.leb_gt in El. destruct Hbad as [H | H]; [lia |].
    rewrite H. now rewrite iface_error_exit_eq.
Qed.

(** "wlan0" has no address, and a name of sixteen characters is too
    long; the list shows eth0 only, "lo" having no address here. *)
Lemma get_interface_failure_witness :
  get_interface eth0_world "wlan0"
  = ([EvStderr "Invalid interface: wlan0"; EvStderr "Available interfaces:";
      EvListIface "eth0" 0x0500000A], Exited 1)
  /\ get_interface eth0_world "enp0s31f6-vlan10"
     = ([EvStderr "Too long interface name: enp0s31f6-vlan10";
         EvStderr "Available interfaces:"; EvListIface "eth0" 0x0500000A],
        Exited 1).
Proof.
  split.
  - assert (w_inet_addr eth0_world "wlan0" = INADDR_NONE) as Ha
        by reflexivity.
    assert (w_ioctl_SIOCGIFADDR eth0_world "wlan0" = None) as Hi
        by reflexivity.
    rewrite (get_interface_failure eth0_world "wlan0" Ha (or_intror Hi)).
    vm_compute. reflexivity.
  - assert (w_inet_addr eth0_world "enp0s31f6-vlan10" = INADDR_NONE) as Ha
        by reflexivity.
    assert (IFNAMSIZ <= Z.of_nat (String.length "enp0s31f6-vlan10")) as Hlen
        by (vm_compute; discriminate).
    rewrite (get_interface_failure eth0_world "enp0s31f6-vlan10" Ha
               (or_introl Hlen)).
    vm_compute. reflexivity.
Defined.

(** ** The option phase is silent when it succeeds *)

Lemma silent_ret {A : Type} (a : A) : silent (ret a).
Proof. intros t a' H. now inversion H. Qed.

Lemma silent_exited {A : Type} (t : list event) (s : Z) :
  silent ((t, Exited s) : M A).
Proof. intros t' a H. discriminate. Qed.

Lemma silent_bind {A B : Type} (m : M A) (k : A -> M B) :
  silent m -> (forall a, silent (k a)) -> silent (bind m k).
Proof.
  intros Hm Hk t b H. apply bind_val_inv in H as (t1 & a & t2 & E1 & E2 & ->).
  now rewrite (Hm _ _ E1), (Hk _ _ _ E2).
Qed.

Lemma silent_show_usage {A : Type} (a0 : string) : silent (@show_usage A a0).
Proof. apply silent_exited. Qed.

Lemma silent_get_interface (w : world) (name : string) :
  silent (get_interface w name).
Proof.
  intros t a. unfold get_interface.
  destruct (negb (w_inet_addr w name =? INADDR_NONE));
    [intros H; now inversion H |].
  destruct (IFNAMSIZ <=? Z.of_nat (String.length name));
    [| destruct (w_ioctl_SIOCGIFADDR w name); [intros H; now inversion H |]];
    rewrite iface_error_exit_eq; unfold bind, emit; simpl; discriminate.
Qed.

(** When [get_interface] ends the process, it is with status 1, and the
    usage text is not what it prints. *)
Lemma get_interface_exits (w : world) (name : string) :
  w_inet_addr w name = INADDR_NONE ->
  IFNAMSIZ <= Z.of_nat (String.length name)
  \/ w_ioctl_SIOCGIFADDR w name = None ->
  snd (get_interface w name) = Exited 1.
Proof.
  intros Ha Hbad. unfold get_interface. rewrite Ha. simpl negb. cbv iota.
  destruct (IFNAMSIZ <=? Z.of_nat (String.length name)) eqn:El.
  - now rewrite iface_error_exit_eq.
  - apply Z.leb_gt in El. destruct Hbad as [H | H]; [lia |].
    rewrite H. now rewrite iface_error_exit_eq.
Qed.

Lemma get_interface_no_usage (w : world) (name a0 : string) :
  ~ In (EvUsage a0) (fst (get_interface w name)).
Proof.
  assert (forall ni, ~ In (EvUsage a0) (interface_lines w ni)) as Hlines.
  { intros ni H. unfold interface_lines in H.
    apply in_flat_map in H as (x & _ & H).
    destruct (w_ioctl_SIOCGIFADDR w x); simpl in H; [| tauto].
    destruct H as [H | []]. discriminate. }
  unfold get_interface.
  destruct (negb (w_inet_addr w name =? INADDR_NONE)); [simpl; tauto |].
  destruct (IFNAMSIZ <=? Z.of_nat (String.length name));
    [| destruct (w_ioctl_SIOCGIFADDR w name); [simpl; tauto |]];
    rewrite iface_error_exit_eq; unfold bind, emit; simpl;
    intros [H | [H | H]]; try discriminate; now apply Hlines in H.
Qed.

Lemma silent_handle_opt (w : world) (a0 : string) (l : locals)
  (opt : ascii) (optarg : string) :
  silent (handle_opt w a0 l opt optarg).
Proof.
  unfold handle_opt.
  repeat match goal with
         | |- silent (if ?b then _ else _) => destruct b
         | |- silent (ret _) => apply silent_ret
         | |- silent (show_usage _) => apply silent_show_usage
         | |- silent (bind _ _) =>
             apply silent_bind; [apply silent_get_interface | intros ?]
         | |- silent (let _ := _ in _) => cbv zeta
         end.
Qed.

Lemma silent_getopt_loop (w : world) (a0 : string) :
  forall os l, silent (getopt_loop w a0 os l).
Proof.
  induction os as [| [opt optarg] os IH]; intros l; simpl.
  - apply silent_ret.
  - apply silent_bind; [apply silent_handle_opt | intros l'; apply IH].
Qed.

Lemma silent_parse_options (cfg : config_h) (w : world) (cmd : cmdline) :
  silent (parse_options cfg w cmd).
Proof.
  unfold parse_options.
  apply silent_bind; [apply silent_getopt_loop | intros l].
  destruct (leftover cmd); [| apply silent_ret].
  apply silent_exited.
Qed.

Lemma getopt_loop_app_val (w : world) (a0 : string)
  (pre post : list (ascii * string)) (l l' : locals) (t : list event) :
  getopt_loop w a0 (pre ++ post) l = (t, Val l') ->
  exists l1,
    getopt_loop w a0 pre l = ([], Val l1)
    /\ getopt_loop w a0 post l1 = ([], Val l').
Proof.
  rewrite getopt_loop_app. intros H.
  apply bind_val_inv in H as (t1 & l1 & t2 & E1 & E2 & _).
  exists l1.
  rewrite (silent_getopt_loop _ _ _ _ _ _ E1) in E1.
  rewrite (silent_getopt_loop _ _ _ _ _ _ E2) in E2. auto.
Qed.

Lemma getopt_loop_cons_val (w : world) (a0 : string) (opt : ascii)
  (optarg : string) (os : list (ascii * string)) (l l' : locals)
  (t : list event) :
  getopt_loop w a0 ((opt, optarg) :: os) l = (t, Val l') ->
  exists l1,
    handle_opt w a0 l opt optarg = ([], Val l1)
    /\ getopt_loop w a0 os l1 = ([], Val l').
Proof.
  simpl. intros H.
  apply bind_val_inv in H as (t1 & l1 & t2 & E1 & E2 & _).
  exists l1.
  rewrite (silent_handle_opt _ _ _ _ _ _ _ E1) in E1.
  rewrite (silent_getopt_loop _ _ _ _ _ _ E2) in E2. auto.
Qed.

(** What main does when the option loop has ended the process. *)
Lemma main_getopt_exited (cfg : config_h) (w : world) (cmd : cmdline)
  (t : list event) (s : Z) (n : nat) :
  getopt_loop w (arg0 cmd) (opts cmd) (initial_locals cfg) = (t, Exited s) ->
  main cfg w cmd n = (t, Exited s).
Proof.
  intros H.
  now apply main_startup_exited, startup_parse_exited,
    parse_options_getopt_exited.
Qed.

(** X3.  An [-i] option that the option loop gets to and that
    [get_interface] cannot resolve ends the process with status 1: the
    process prints the reason and the interface list, not the usage
    text, and initialises nothing, whatever options follow, a valid
    [-i] included. *)
Theorem unresolved_interface_ends_the_process :
  forall (cfg : config_h) (w : world) (cmd : cmdline)
         (pre post : list (ascii * string)) (name : string)
         (t1 : list event) (l1 : locals),
    opts cmd = pre ++ ("i"%char, name) :: post ->
    getopt_loop w (arg0 cmd) pre (initial_locals cfg) = (t1, Val l1) ->
    w_inet_addr w name = INADDR_NONE ->
    IFNAMSIZ <= Z.of_nat (String.length name)
    \/ w_ioctl_SIOCGIFADDR w name = None ->
    forall n,
      main cfg w cmd n = (fst (get_interface w name), Exited 1)
      /\ ~ In (EvUsage (arg0 cmd)) (fst (main cfg w cmd n))
      /\ forallb is_report (fst (main cfg w cmd n)) = true.
Proof.
  intros cfg w cmd pre post name t1 l1 Hopts Hpre Ha Hbad n.
  pose proof (get_interface_exits w name Ha Hbad) as Hg.
  assert (main cfg w cmd n = (fst (get_interface w name), Exited 1)) as Hm.
  { apply main_getopt_exited.
    rewrite Hopts, getopt_loop_app, (bind_val _ _ _ _ Hpre).
    rewrite (silent_getopt_loop _ _ _ _ _ _ Hpre). simpl.
    unfold handle_opt. simpl.
    destruct (get_interface w name) as [tg rg]. simpl in Hg. subst rg.
    reflexivity. }
  rewrite Hm. simpl fst. repeat split.
  - apply get_interface_no_usage.
  - destruct (reports_only_get_interface w name) as [H _]. exact H.
Qed.

(** [-i wlan0 -i eth0]: the first interface has no address; the valid
    one behind it does not help. *)
Lemma unresolved_interface_ends_the_process_witness :
  main sample_config eth0_world
    (options [("i"%char, "wlan0"); ("i"%char, "eth0")]) 3
  = ([EvStderr "Invalid interface: wlan0"; EvStderr "Available interfaces:";
      EvListIface "eth0" 0x0500000A], Exited 1).
Proof.
  assert (w_inet_addr eth0_world "wlan0" = INADDR_NONE) as Ha
      by reflexivity.
  assert (w_ioctl_SIOCGIFADDR eth0_world "wlan0" = None) as Hi
      by reflexivity.
  destruct (unresolved_interface_ends_the_process sample_config
              eth0_world
              (options [("i"%char, "wlan0"); ("i"%char, "eth0")])
              [] [("i"%char, "eth0")] "wlan0" []
              (initial_locals sample_config)
              eq_refl eq_refl Ha (or_intror Hi) 3%nat)
    as [Hm _].
  rewrite Hm. vm_compute. reflexivity.
Defined.

(** ** Exit status and what the process prints *)

Lemma after_options_exit_status (cfg : config_h) (w : world) (a0 : string)
  (l : locals) (n : nat) (t : list event) (s : Z) :
  after_options cfg w a0 l n = (t, Exited s) -> s = 1.
Proof.
  unfold after_options. rewrite init_output_eq.
  destruct (sink_init_status cfg w l) as [st |].
  - destruct (st =? 0).
    + rewrite init_receiver_eq. unfold bind, emit. simpl.
      destruct (driver_loop w (rcv_fn_of (receiver_mode l))
                  (send_fn_of (output_mode l)) n 0) as [tl [u | s']] eqn:E;
        intros H; inversion H; subst.
      now destruct (driver_loop_exit_inv _ _ _ _ _ _ _ E).
    + unfold bind, emit. simpl. intros H. now inversion H.
  - unfold bind, emit. simpl. intros H. now inversion H.
Qed.

(** X4.  Whenever the process ends, its exit status is 1: main has no
    path to a status of 0 or to any other status, whether it stops in
    the option loop, in the initialisation or in the driver loop. *)
Theorem every_exit_has_status_1 :
  forall (cfg : config_h) (w : world) (cmd : cmdline) (n : nat)
         (t : list event) (s : Z),
    main cfg w cmd n = (t, Exited s) -> s = 1.
Proof.
  intros cfg w cmd n t s. rewrite main_after_options.
  destruct (reports_only_parse_options cfg w cmd) as [_ Hs].
  destruct (parse_options cfg w cmd) as [tp [l | sp]]; simpl in *.
  - destruct (after_options cfg w (arg0 cmd) l n) as [ta [u | sa]] eqn:E;
      intros H; inversion H; subst.
    exact (after_options_exit_status _ _ _ _ _ _ _ E).
  - intros H. inversion H; subst. now apply Hs.
Qed.

(** The sample world's fatal third send ends the process with 1. *)
Lemma every_exit_has_status_1_witness :
  snd (main sample_config sample_world no_options 5) = Exited 1.
Proof.
  destruct (main sample_config sample_world no_options 5) as [t [u | s]] eqn:E.
  - vm_compute in E. discriminate E.
  - simpl. f_equal.
    exact (every_exit_has_status_1 sample_config sample_world no_options 5
             t s E).
Defined.

Lemma parse_options_val_eq (cfg : config_h) (w : world) (cmd : cmdline)
  (t : list event) (l : locals) :
  parse_options cfg w cmd = (t, Val l) ->
  t = []
  /\ getopt_loop w (arg0 cmd) (opts cmd) (initial_locals cfg) = ([], Val l)
  /\ leftover cmd = false.
Proof.
  intros H. pose proof (silent_parse_options cfg w cmd _ _ H) as ->.
  split; [reflexivity |]. now apply parse_options_val_inv.
Qed.

Lemma handle_opt_verbosity (w : world) (a0 : string) (l l' : locals)
  (opt : ascii) (optarg : string) (t : list event) :
  handle_opt w a0 l opt optarg = (t, Val l') ->
  verbosity l' = verbosity l + (if is_opt "v" opt then 1 else 0).
Proof.
  intros H. handle_opt_returns H;
    repeat match goal with
           | E : is_opt _ _ = true |- _ => apply is_opt_true in E; subst
           end;
    simpl; lia.
Qed.

Lemma getopt_loop_verbosity (w : world) (a0 : string) :
  forall os l t l',
    getopt_loop w a0 os l = (t, Val l') ->
    verbosity l' = verbosity l + count_v os.
Proof.
  unfold count_v.
  induction os as [| [opt optarg] os IH]; intros l t l' H.
  - inversion H; subst. simpl. lia.
  - apply getopt_loop_cons_val in H as (l1 & Hh & Hg).
    rewrite (IH _ _ _ Hg), (handle_opt_verbosity _ _ _ _ _ _ _ Hh).
    simpl filter. simpl fst. destruct (is_opt "v" opt); simpl List.length; lia.
Qed.

(** X5.  The option phase writes nothing when it succeeds, and
    [verbosity] counts the [-v] options.  So a start that reaches the
    loop has printed nothing at all when no [-v] was given, and
    otherwise exactly two lines: the output backend in use, then the
    receiver being started. *)
Theorem start_is_quiet_without_v :
  forall (cfg : config_h) (w : world) (cmd : cmdline) (t0 : list event)
         (r : rcv_fn) (s : send_fn),
    startup cfg w cmd = (t0, Val (r, s)) ->
    exists l,
      parse_options cfg w cmd = ([], Val l)
      /\ verbosity l = count_v (opts cmd)
      /\ t0 = startup_events l
      /\ filter is_report t0 = announce_output l ++ announce_receiver l
      /\ (has_opt "v" (opts cmd) = false -> filter is_report t0 = [])
      /\ (has_opt "v" (opts cmd) = true ->
          List.length (filter is_report t0) = 2%nat).
Proof.
  intros cfg w cmd t0 r s Hs.
  destruct (startup_val_inv _ _ _ _ _ _ Hs) as (tp & l & Hp & _ & -> & _ & _).
  destruct (parse_options_val_eq _ _ _ _ _ Hp) as (-> & Hg & _).
  exists l. split; [exact Hp |].
  pose proof (getopt_loop_verbosity _ _ _ _ _ _ Hg) as Hv. simpl in Hv.
  split; [exact Hv |]. split; [reflexivity |].
  assert (filter is_report ([] ++ startup_events l)
          = announce_output l ++ announce_receiver l) as Hf.
  { unfold startup_events, announce_output, announce_receiver,
      sink_init_call, transport_init_call. simpl.
    destruct (verbose l), (output_mode l), (receiver_mode l); reflexivity. }
  split; [exact Hf |].
  assert (has_opt "v" (opts cmd) = false <-> count_v (opts cmd) = 0) as Hc.
  { unfold has_opt, touches, count_v. clear.
    induction (opts cmd) as [| [o a] os IH]; simpl; [tauto |].
    destruct (is_opt "v" o); simpl.
    - split; [discriminate | lia].
    - exact IH. }
  rewrite Hf. unfold announce_output, announce_receiver, verbose.
  split.
  - intros Hno. apply Hc in Hno. rewrite Hv, Hno. reflexivity.
  - intros Hyes.
    assert (count_v (opts cmd) <> 0) as Hne.
    { intros E. apply Hc in E. congruence. }
    rewrite Hv. apply Z.eqb_neq in Hne. rewrite Hne. reflexivity.
Qed.

(** [-v -u]: two lines, ahead of the two inits. *)
Lemma start_is_quiet_without_v_witness :
  filter is_report
    (fst (startup sample_config sample_world
            (options [("v"%char, ""); ("u"%char, "")])))
  = [EvStderr "Using Pulseaudio output";
     EvStderr "Starting unicast receiver"].
Proof.
  destruct (start_is_quiet_without_v sample_config sample_world
              (options [("v"%char, ""); ("u"%char, "")]) _ rcv_network
              pulse_output_send eq_refl)
    as (l & Hp & _ & _ & Hf & _).
  inversion Hp; subst l. exact Hf.
Defined.

(** ** Ranges *)

Lemma to_int_range (z : Z) : - 2 ^ 31 <= to_int z < 2 ^ 31.
Proof.
  unfold to_int.
  pose proof (Z.mod_pos_bound (z + 2 ^ 31) (2 ^ 32) ltac:(lia)). lia.
Qed.

Lemma to_uint16_range (z : Z) : 0 <= to_uint16 z <= 65535.
Proof.
  unfold to_uint16.
  pose proof (Z.mod_pos_bound z (2 ^ 16) ltac:(lia)). lia.
Qed.

Lemma atoi_range (s : string) : - 2 ^ 31 <= atoi s < 2 ^ 31.
Proof.
  unfold atoi. destruct (skip_space s) as [| c s']; [lia |].
  destruct (Ascii.eqb c "-"); [apply to_int_range |].
  destruct (Ascii.eqb c "+"); apply to_int_range.
Qed.

Lemma handle_opt_in_range (cfg : config_h) (w : world) (a0 : string)
  (l l' : locals) (opt : ascii) (optarg : string) (t : list event) :
  handle_opt w a0 l opt optarg = (t, Val l') ->
  in_range cfg l -> in_range cfg l'.
Proof.
  intros H (Ht & Hm & Hp). unfold in_range.
  handle_opt_returns H; simpl in *; try (repeat split; auto; lia).
  - apply Z.eqb_neq in Ecase.
    pose proof (to_uint16_range (atoi optarg)).
    repeat split; lia.
  - apply Z.ltb_ge in Ecase. pose proof (atoi_range optarg).
    repeat split; auto; lia.
  - apply Z.ltb_ge in Ecase. pose proof (atoi_range optarg).
    repeat split; auto; lia.
Qed.

Lemma getopt_loop_in_range (cfg : config_h) (w : world) (a0 : string) :
  forall os l t l',
    getopt_loop w a0 os l = (t, Val l') -> in_range cfg l -> in_range cfg l'.
Proof.
  induction os as [| [opt optarg] os IH]; intros l t l' H Hl.
  - now inversion H; subst.
  - apply getopt_loop_cons_val in H as (l1 & Hh & Hg).
    apply (IH _ _ _ Hg). exact (handle_opt_in_range _ _ _ _ _ _ _ _ Hh Hl).
Qed.

(** X6.  The numbers that leave the option phase are in range: the
    target and the maximum latency are non-negative [int]s, and the port
    is the default port or a value from 1 to 65535.  It follows that no
    sink is ever initialised with a negative latency, nor a network
    transport with a port outside 1..65535 other than the default. *)
Theorem parsed_numbers_are_in_range :
  forall (cfg : config_h) (w : world) (cmd : cmdline) (t : list event)
         (l : locals),
    parse_options cfg w cmd = (t, Val l) ->
    0 <= target_latency_ms l < 2 ^ 31
    /\ 0 <= max_latency_ms l < 2 ^ 31
    /\ (port l = DEFAULT_PORT cfg \/ 1 <= port l <= 65535)
    /\ forall n e,
         In e (fst (main cfg w cmd n)) ->
         match e with
         | EvPulseInit tg mx _ => 0 <= tg /\ 0 <= mx
         | EvAlsaInit tg _ => 0 <= tg
         | EvInitNetwork _ _ p _ => p = DEFAULT_PORT cfg \/ 1 <= p <= 65535
         | _ => True
         end.
Proof.
  intros cfg w cmd t l Hp.
  destruct (parse_options_val_eq _ _ _ _ _ Hp) as (-> & Hg & _).
  assert (in_range cfg l) as (Ht & Hm & Hport).
  { apply (getopt_loop_in_range _ _ _ _ _ _ _ Hg).
    unfold in_range. simpl. repeat split; lia. }
  repeat split; try lia; try exact Hport.
  intros n e Hin.
  pose proof (startup_eq _ _ _ _ _ Hp) as Hs.
  assert (In e ([] ++ startup_events l) -> 
          match e with
          | EvPulseInit tg mx _ => 0 <= tg /\ 0 <= mx
          | EvAlsaInit tg _ => 0 <= tg
          | EvInitNetwork _ _ p _ => p = DEFAULT_PORT cfg \/ 1 <= p <= 65535
          | _ => True
          end) as Hstart.
  { unfold startup_events, announce_output, announce_receiver,
      sink_init_call, transport_init_call. simpl.
    destruct (verbose l), (output_mode l), (receiver_mode l); simpl;
      intros H;
      repeat match goal with
             | H : _ \/ _ |- _ => destruct H as [H | H]
             | H : False |- _ => destruct H
             end; subst e; auto; lia. }
  destruct (sink_init_status cfg w l) as [st |].
  - destruct (st =? 0).
    + destruct (main_trace_split _ _ _ _ _ _ n Hs) as (tl & E & Htl).
      rewrite E in Hin. apply in_app_or in Hin as [Hin | Hin].
      * now apply Hstart.
      * rewrite Forall_forall in Htl.
        destruct (Htl _ Hin) as [-> | [d ->]]; exact I.
    + rewrite (main_startup_exited _ _ _ _ _ n Hs) in Hin. simpl in Hin.
      destruct Hin as [<- | Hin]; [exact I |].
      apply in_app_or in Hin as [Hin | [<- | []]].
      * unfold announce_output in Hin.
        destruct (verbose l); simpl in Hin; [| tauto].
        destruct Hin as [<- | []]. exact I.
      * unfold sink_init_call. destruct (output_mode l); auto; lia.
  - rewrite (main_startup_exited _ _ _ _ _ n Hs) in Hin. simpl in Hin.
    destruct Hin as [<- | [<- | []]]; exact I.
Qed.

(** [-p 70000]: the port wraps to 4464; with [-t 30] the sink gets 30. *)
Lemma parsed_numbers_are_in_range_witness :
  exists l,
    parse_options sample_config sample_world
      (options [("p"%char, "70000"); ("t"%char, "30")]) = ([], Val l)
    /\ port l = 4464 /\ target_latency_ms l = 30
    /\ 1 <= port l <= 65535.
Proof.
  eexists. split; [reflexivity |].
  destruct (parsed_numbers_are_in_range sample_config sample_world
              (options [("p"%char, "70000"); ("t"%char, "30")]) [] _ eq_refl)
    as (_ & _ & Hport & _).
  split; [reflexivity |]. split; [reflexivity |].
  destruct Hport as [H | H]; [vm_compute in H; discriminate H | exact H].
Defined.

(** ** Ways out of the option phase *)

(** X7.  When the option loop has gone through all options and an
    argument is left over ([optind < argc]), the process prints
    "Expected argument after options" and the usage text, and ends with
    status 1 before anything is initialised. *)
Theorem leftover_argument_shows_usage :
  forall (cfg : config_h) (w : world) (cmd : cmdline) (t : list event)
         (l : locals),
    getopt_loop w (arg0 cmd) (opts cmd) (initial_locals cfg) = (t, Val l) ->
    leftover cmd = true ->
    forall n,
      main cfg w cmd n
      = ([EvStderr "Expected argument after options"; EvUsage (arg0 cmd)],
         Exited 1).
Proof.
  intros cfg w cmd t l Hg Hl n.
  apply main_startup_exited, startup_parse_exited.
  unfold parse_options. rewrite (bind_val _ _ _ _ Hg), Hl.
  now rewrite (silent_getopt_loop _ _ _ _ _ _ Hg).
Qed.

(** [scream -u extra]: the option is fine, the argument is not. *)
Lemma leftover_argument_shows_usage_witness :
  main sample_config sample_world
    {| arg0 := "scream"; opts := [("u"%char, "")]; leftover := true |} 4
  = ([EvStderr "Expected argument after options"; EvUsage "scream"],
     Exited 1).
Proof.
  exact (leftover_argument_shows_usage sample_config sample_world
           {| arg0 := "scream"; opts := [("u"%char, "")]; leftover := true |}
           [] _ eq_refl eq_refl 4%nat).
Defined.

Lemma handle_opt_unhandled (w : world) (a0 : string) (l : locals)
  (opt : ascii) (optarg : string) :
  ~ In opt handled_options ->
  handle_opt w a0 l opt optarg = ([EvUsage a0], Exited 1).
Proof.
  intros Hnot. unfold handle_opt.
  repeat match goal with
         | |- context [if is_opt ?c opt then _ else _] =>
             let E := fresh "E" in
             destruct (is_opt c opt) eqn:E;
             [apply is_opt_true in E; exfalso; apply Hnot; subst opt;
              vm_compute; tauto |]
         end.
  reflexivity.
Qed.

(** X8.  An option character that the switch has no case for, such as
    [-h] or the '?' that [getopt] returns for an unknown option, makes
    the process print the usage text and end with status 1 as soon as
    the option loop gets to it; nothing is initialised. *)
Theorem unhandled_option_shows_usage :
  forall (cfg : config_h) (w : world) (cmd : cmdline)
         (pre post : list (ascii * string)) (opt : ascii) (optarg : string)
         (t1 : list event) (l1 : locals),
    opts cmd = pre ++ (opt, optarg) :: post ->
    ~ In opt handled_options ->
    getopt_loop w (arg0 cmd) pre (initial_locals cfg) = (t1, Val l1) ->
    forall n, main cfg w cmd n = ([EvUsage (arg0 cmd)], Exited 1).
Proof.
  intros cfg w cmd pre post opt optarg t1 l1 Hopts Hnot Hpre n.
  apply main_getopt_exited.
  rewrite Hopts, getopt_loop_app, (bind_val _ _ _ _ Hpre).
  rewrite (silent_getopt_loop _ _ _ _ _ _ Hpre). simpl.
  now rewrite (handle_opt_unhandled _ _ _ _ _ Hnot).
Qed.

(** [-m /dev/shmem -h]: help is all that happens. *)
Lemma unhandled_option_shows_usage_witness :
  main sample_config sample_world
    (options [("m"%char, "/dev/shmem"); ("h"%char, "")]) 4
  = ([EvUsage "scream"], Exited 1).
Proof.
  assert (~ In "h"%char handled_options) as Hnot.
  { vm_compute. intros H.
    repeat match goal with
           | H : _ \/ _ |- _ => destruct H as [H | H]
           end; try discriminate H; exact H. }
  exact (unhandled_option_shows_usage sample_config sample_world
           (options [("m"%char, "/dev/shmem"); ("h"%char, "")])
           [("m"%char, "/dev/shmem")] [] "h"%char "" [] _
           eq_refl Hnot eq_refl 4%nat).
Defined.

(** X9.  The options behind one that ends the process are never looked
    at: when the option loop ends the process on a prefix of the
    options, the process does the same on the whole command line, with
    status 1, whatever follows and whether or not an argument is left
    over. *)
Theorem options_after_a_failure_are_ignored :
  forall (cfg : config_h) (w : world) (cmd : cmdline)
         (pre post : list (ascii * string)) (t : list event) (s : Z),
    opts cmd = pre ++ post ->
    getopt_loop w (arg0 cmd) pre (initial_locals cfg) = (t, Exited s) ->
    forall n, main cfg w cmd n = (t, Exited 1).
Proof.
  intros cfg w cmd pre post t s Hopts Hpre n.
  destruct (reports_only_getopt_loop w (arg0 cmd) pre (initial_locals cfg))
    as [_ Hs].
  rewrite (Hs s) in Hpre by now rewrite Hpre.
  apply main_getopt_exited.
  now rewrite Hopts, getopt_loop_app, (bind_exited _ _ _ _ Hpre).
Qed.

(** [-t -5 -t 30 -o raw]: the negative latency decides. *)
Lemma options_after_a_failure_are_ignored_witness :
  main sample_config sample_world
    (options [("t"%char, "-5"); ("t"%char, "30"); ("o"%char, "raw")]) 4
  = ([EvUsage "scream"], Exited 1).
Proof.
  exact (options_after_a_failure_are_ignored sample_config sample_world
           (options [("t"%char, "-5"); ("t"%char, "30"); ("o"%char, "raw")])
           [("t"%char, "-5")] [("t"%char, "30"); ("o"%char, "raw")]
           [EvUsage "scream"] 1 eq_refl eq_refl 4%nat).
Defined.

(** ** The output backend in force *)

Lemma handle_opt_output_origin (w : world) (a0 : string) (l l' : locals)
  (opt : ascii) (optarg : string) (t : list event) :
  handle_opt w a0 l opt optarg = (t, Val l') ->
  output_mode l' = output_mode l
  \/ (opt = "o"%char /\ optarg = name_of_output (output_mode l')).
Proof.
  intros H. handle_opt_returns H; simpl; auto;
    right; (split; [now apply is_opt_true |]); now apply String.eqb_eq.
Qed.

Lemma getopt_loop_output_origin (w : world) (a0 : string) :
  forall os l t l',
    getopt_loop w a0 os l = (t, Val l') ->
    output_mode l' = output_mode l
    \/ In ("o"%char, name_of_output (output_mode l')) os.
Proof.
  induction os as [| [opt optarg] os IH]; intros l t l' H.
  - inversion H; subst. now left.
  - apply getopt_loop_cons_val in H as (l1 & Hh & Hg).
    destruct (IH _ _ _ Hg) as [E | Hin]; [| right; now right].
    destruct (handle_opt_output_origin _ _ _ _ _ _ _ Hh) as [E1 | [-> ->]].
    + left. congruence.
    + right. left. now rewrite E.
Qed.

(** X10.  When the selected backend is not compiled in, the process
    says so and ends with status 1 without calling any init function.
    This happens only on request: the backend was named by [-o pulse] or
    [-o alsa] on the command line, the compiled-in default being always
    available. *)
Theorem missing_backend_aborts_only_on_request :
  forall (cfg : config_h) (w : world) (cmd : cmdline) (t : list event)
         (l : locals),
    parse_options cfg w cmd = (t, Val l) ->
    sink_init_status cfg w l = None ->
    (forall n,
        main cfg w cmd n
        = (EvSetpriority (-11) :: unsupported_output (arg0 cmd) l, Exited 1))
    /\ (output_mode l = Pulseaudio /\ PULSEAUDIO_ENABLE cfg = false
        /\ In ("o"%char, "pulse") (opts cmd)
        \/ output_mode l = Alsa /\ ALSA_ENABLE cfg = false
           /\ In ("o"%char, "alsa") (opts cmd)).
Proof.
  intros cfg w cmd t l Hp Hst.
  destruct (parse_options_val_eq _ _ _ _ _ Hp) as (-> & Hg & _).
  split.
  - intros n. apply main_startup_exited.
    now rewrite (startup_eq _ _ _ _ _ Hp), Hst.
  - unfold sink_init_status in Hst.
    destruct (getopt_loop_output_origin _ _ _ _ _ _ Hg) as [E | Hin].
    + simpl in E. unfold default_output_mode in E.
      destruct (output_mode l), (PULSEAUDIO_ENABLE cfg), (ALSA_ENABLE cfg);
        discriminate.
    + destruct (output_mode l), (PULSEAUDIO_ENABLE cfg), (ALSA_ENABLE cfg);
        simpl in *; try discriminate; auto.
Qed.

(** [-o alsa] on a build with the raw output only. *)
Lemma missing_backend_aborts_only_on_request_witness :
  main raw_only_config sample_world (options [("o"%char, "alsa")]) 3
  = ([EvSetpriority (-11);
      EvStderr "scream compiled without ALSA support. Aborting"], Exited 1).
Proof.
  exact (proj1 (missing_backend_aborts_only_on_request raw_only_config
                  sample_world (options [("o"%char, "alsa")]) [] _
                  eq_refl eq_refl) 3%nat).
Defined.

Lemma filter_all_false (p : event -> bool) (t : list event) :
  Forall (fun e => p e = false) t -> filter p t = [].
Proof.
  induction 1 as [| e t He _ IH]; simpl; [reflexivity |]. now rewrite He.
Qed.

Lemma report_not_pulse_event (e : event) :
  is_report e = true -> is_pulse_event e = false.
Proof. destruct e; simpl; congruence. Qed.

Lemma report_not_alsa_event (e : event) :
  is_report e = true -> is_alsa_event e = false.
Proof. destruct e; simpl; congruence. Qed.

(** The trace of main, case by case. *)
Lemma main_trace_cases (cfg : config_h) (w : world) (cmd : cmdline)
  (n : nat) :
  (forallb is_report (fst (main cfg w cmd n)) = true)
  \/ exists l,
       parse_options cfg w cmd = ([], Val l)
       /\ ((sink_init_status cfg w l = None
            /\ fst (main cfg w cmd n)
               = EvSetpriority (-11) :: unsupported_output (arg0 cmd) l)
           \/ (exists st,
                  sink_init_status cfg w l = Some st /\ st <> 0
                  /\ fst (main cfg w cmd n)
                     = EvSetpriority (-11)
                       :: announce_output l ++ [sink_init_call l])
           \/ (sink_init_status cfg w l = Some 0
               /\ exists tl,
                    fst (main cfg w cmd n) = startup_events l ++ tl
                    /\ Forall (fun e =>
                                 e = EvCallRcv (rcv_fn_of (receiver_mode l))
                                 \/ exists d,
                                      e = EvCallSend
                                            (send_fn_of (output_mode l)) d)
                              tl)).
Proof.
  destruct (reports_only_parse_options cfg w cmd) as [Hr _].
  destruct (parse_options cfg w cmd) as [tp [l | s]] eqn:Hp.
  - right. destruct (parse_options_val_eq _ _ _ _ _ Hp) as (-> & _ & _).
    exists l. split; [reflexivity |].
    pose proof (startup_eq _ _ _ _ _ Hp) as Hs.
    destruct (sink_init_status cfg w l) as [st |].
    + destruct (st =? 0) eqn:E.
      * apply Z.eqb_eq in E. subst st. right. right.
        split; [reflexivity |]. exact (main_trace_split _ _ _ _ _ _ n Hs).
      * apply Z.eqb_neq in E. right. left. exists st.
        rewrite (main_startup_exited _ _ _ _ _ n Hs). auto.
    + left. rewrite (main_startup_exited _ _ _ _ _ n Hs). auto.
  - left. rewrite (main_startup_exited _ _ _ _ _ n
                     (startup_parse_exited _ _ _ _ _ Hp)).
    exact Hr.
Qed.

(** X11.  A backend that is not compiled in is never touched: on a
    build without PulseAudio no run calls [pulse_output_init] or sends
    through [pulse_output_send], and likewise for ALSA, whatever the
    command line asks for. *)
Theorem backend_not_compiled_in_is_never_called :
  forall (cfg : config_h) (w : world) (cmd : cmdline) (n : nat),
    (PULSEAUDIO_ENABLE cfg = false ->
     filter is_pulse_event (fst (main cfg w cmd n)) = [])
    /\ (ALSA_ENABLE cfg = false ->
        filter is_alsa_event (fst (main cfg w cmd n)) = []).
Proof.
  intros cfg w cmd n.
  destruct (main_trace_cases cfg w cmd n)
    as [Hr | (l & _ & [[Hst ->] | [(st & Hst & _ & ->) | (Hst & tl & -> & Htl)]])].
  - split; intros _.
    + exact (filter_reports _ _ report_not_pulse_event Hr).
    + exact (filter_reports _ _ report_not_alsa_event Hr).
  - split; intros _; unfold unsupported_output; reflexivity.
  - unfold sink_init_status in Hst.
    split; intros Hoff; rewrite Hoff in Hst;
      unfold announce_output, sink_init_call;
      destruct (verbose l), (output_mode l); try discriminate; reflexivity.
  - unfold sink_init_status in Hst.
    split; intros Hoff; rewrite Hoff in Hst;
      rewrite filter_app;
      match goal with
      | |- filter ?p _ ++ _ = [] =>
          rewrite (filter_all_false p tl)
      end;
      try (rewrite app_nil_r;
           unfold startup_events, announce_output, announce_receiver,
             sink_init_call, transport_init_call;
           destruct (verbose l), (output_mode l), (receiver_mode l);
           try discriminate; reflexivity);
      (eapply Forall_impl; [| exact Htl]);
      intros e [-> | [d ->]]; simpl; auto;
      destruct (output_mode l); try discriminate; reflexivity.
Qed.

(** [-o pulse] on a build with the raw output only: no PulseAudio call. *)
Lemma backend_not_compiled_in_is_never_called_witness :
  filter is_pulse_event
    (fst (main raw_only_config sample_world
            (options [("o"%char, "pulse")]) 3)) = [].
Proof.
  exact (proj1 (backend_not_compiled_in_is_never_called raw_only_config
                  sample_world (options [("o"%char, "pulse")]) 3%nat)
           eq_refl).
Defined.

Lemma handle_opt_output_of_name (w : world) (a0 : string) (l l' : locals)
  (v : string) (m : output_type) (t : list event) :
  output_of_name v = Some m ->
  handle_opt w a0 l "o" v = (t, Val l') -> output_mode l' = m.
Proof.
  unfold output_of_name, handle_opt. simpl.
  destruct (String.eqb v "pulse"); [| destruct (String.eqb v "alsa");
                                      [| destruct (String.eqb v "raw")]];
    intros Hm H; inversion Hm; inversion H; reflexivity.
Qed.

(** X12.  Among several [-o] options the last recognised one decides:
    after [-o v] with [v] one of "pulse", "alsa", "raw", and only
    unrecognised [-o] values behind it, the output mode is the backend
    that [v] names, and it is that backend's init that the start calls. *)
Theorem last_recognised_output_wins :
  forall (cfg : config_h) (w : world) (cmd : cmdline)
         (pre post : list (ascii * string)) (v : string) (m : output_type)
         (t : list event) (l : locals),
    opts cmd = pre ++ ("o"%char, v) :: post ->
    output_of_name v = Some m ->
    (forall v', In ("o"%char, v') post -> recognised_output v' = false) ->
    parse_options cfg w cmd = (t, Val l) ->
    output_mode l = m
    /\ forall n e,
         In e (fst (main cfg w cmd n)) -> is_sink_init e = true ->
         e = sink_init_call l /\ init_of_send (send_fn_of m) e = true.
Proof.
  intros cfg w cmd pre post v m t l Hopts Hv Hpost Hp.
  destruct (parse_options_val_eq _ _ _ _ _ Hp) as (-> & Hg & _).
  rewrite Hopts in Hg.
  apply getopt_loop_app_val in Hg as (l1 & _ & Hg).
  apply getopt_loop_cons_val in Hg as (l2 & Hh & Hg).
  assert (output_mode l = m) as Hm.
  { rewrite (getopt_loop_output_mode _ _ _ _ _ _ Hpost Hg).
    exact (handle_opt_output_of_name _ _ _ _ _ _ _ Hv Hh). }
  split; [exact Hm |]. intros n e Hin He.
  assert (e = sink_init_call l) as ->.
  { destruct (main_trace_cases cfg w cmd n)
      as [Hr | (l' & Hp' & [[_ E] | [(st & _ & _ & E) | (_ & tl & E & Htl)]])].
    - pose proof (filter_nil_not_in _ _ _
                    (filter_reports _ _ report_not_sink_init Hr) Hin).
      congruence.
    - rewrite E in Hin. unfold unsupported_output in Hin. simpl in Hin.
      destruct Hin as [<- | [<- | []]]; discriminate.
    - rewrite Hp in Hp'. inversion Hp'; subst l'.
      rewrite E in Hin. simpl in Hin. destruct Hin as [<- | Hin];
        [discriminate |].
      apply in_app_or in Hin as [Hin | [<- | []]]; [| reflexivity].
      pose proof (filter_nil_not_in _ _ _
                    (filter_reports _ _ report_not_sink_init
                       (announce_output_reports l)) Hin).
      congruence.
    - rewrite Hp in Hp'. inversion Hp'; subst l'.
      rewrite E in Hin. apply in_app_or in Hin as [Hin | Hin].
      + assert (In e (filter is_sink_init (startup_events l))) as Hf
            by (apply filter_In; auto).
        rewrite startup_events_sink_init in Hf.
        destruct Hf as [<- | []]. reflexivity.
      + rewrite Forall_forall in Htl.
        destruct (Htl _ Hin) as [-> | [d ->]]; discriminate. }
  split; [reflexivity |].
  unfold sink_init_call. rewrite Hm. destruct m; reflexivity.
Qed.

(** [-o raw -o jack]: raw stays in force and [raw_output_init] is the
    sink init of the run. *)
Lemma last_recognised_output_wins_witness :
  In EvRawInit
     (fst (main sample_config sample_world
             (options [("o"%char, "raw"); ("o"%char, "jack")]) 2))
  /\ forall e,
       In e (fst (main sample_config sample_world
                    (options [("o"%char, "raw"); ("o"%char, "jack")]) 2)) ->
       is_sink_init e = true -> e = EvRawInit.
Proof.
  assert (forall v', In ("o"%char, v') [("o"%char, "jack")] ->
                     recognised_output v' = false) as Hpost.
  { intros v' [E | []]. inversion E. reflexivity. }
  destruct (last_recognised_output_wins sample_config sample_world
              (options [("o"%char, "raw"); ("o"%char, "jack")])
              [] [("o"%char, "jack")] "raw" Raw [] _
              eq_refl eq_refl Hpost eq_refl) as (_ & Hcall).
  split.
  - vm_compute. tauto.
  - intros e Hin He. exact (proj1 (Hcall 2%nat e Hin He)).
Defined.

(** X13.  The loop sends only to a sink that was initialised, and
    receives only from a transport that was: every call of a send
    function comes after the init call of the backend of that very
    function, and every call of a receive function after the init call
    of its transport. *)
Theorem loop_calls_follow_their_init :
  forall (cfg : config_h) (w : world) (cmd : cmdline) (n : nat),
    (forall f d,
        In (EvCallSend f d) (fst (main cfg w cmd n)) ->
        exists before e after,
          fst (main cfg w cmd n) = before ++ e :: after
          /\ init_of_send f e = true
          /\ In (EvCallSend f d) after)
    /\ (forall f,
           In (EvCallRcv f) (fst (main cfg w cmd n)) ->
           exists before e after,
             fst (main cfg w cmd n) = before ++ e :: after
             /\ init_of_rcv f e = true
             /\ In (EvCallRcv f) after).
Proof.
  intros cfg w cmd n.
  assert (forall e, is_loop_call e = true ->
                    In e (fst (main cfg w cmd n)) ->
                    exists l tl,
                      fst (main cfg w cmd n) = startup_events l ++ tl
                      /\ In e tl
                      /\ (e = EvCallRcv (rcv_fn_of (receiver_mode l))
                          \/ exists d,
                               e = EvCallSend (send_fn_of (output_mode l)) d))
    as Hcall.
  { intros e He Hin.
    destruct (main_trace_cases cfg w cmd n)
      as [Hr | (l & _ & [[_ E] | [(st & _ & _ & E) | (_ & tl & E & Htl)]])].
    - pose proof (filter_nil_not_in _ _ _
                    (filter_reports _ _ report_not_loop_call Hr) Hin).
      congruence.
    - rewrite E in Hin. unfold unsupported_output in Hin. simpl in Hin.
      destruct Hin as [<- | [<- | []]]; discriminate.
    - rewrite E in Hin. simpl in Hin. destruct Hin as [<- | Hin];
        [discriminate |].
      apply in_app_or in Hin as [Hin | [<- | []]].
      + pose proof (filter_nil_not_in _ _ _
                      (filter_reports _ _ report_not_loop_call
                         (announce_output_reports l)) Hin).
        congruence.
      + unfold sink_init_call in He. destruct (output_mode l); discriminate.
    - exists l, tl. split; [exact E |].
      rewrite E in Hin. apply in_app_or in Hin as [Hin | Hin].
      + pose proof (filter_nil_not_in _ _ _
                      (startup_events_no_loop_call l) Hin).
        congruence.
      + split; [exact Hin |]. rewrite Forall_forall in Htl. now apply Htl. }
  split.
  - intros f d Hin.
    destruct (Hcall (EvCallSend f d) eq_refl Hin)
      as (l & tl & E & Htl & [H | [d' H]]);
      [discriminate |].
    inversion H; subst.
    exists (EvSetpriority (-11) :: announce_output l), (sink_init_call l),
      (EvStoreSend (send_fn_of (output_mode l))
         :: announce_receiver l
         ++ [transport_init_call l; EvStoreRcv (rcv_fn_of (receiver_mode l))]
         ++ tl).
    split; [| split].
    + rewrite E. unfold startup_events. simpl.
      repeat (rewrite <- app_assoc || rewrite <- app_comm_cons); simpl.
      reflexivity.
    + unfold sink_init_call. destruct (output_mode l); reflexivity.
    + right. apply in_or_app. right. apply in_or_app. now right.
  - intros f Hin.
    destruct (Hcall (EvCallRcv f) eq_refl Hin)
      as (l & tl & E & Htl & [H | [d' H]]);
      [| discriminate].
    inversion H; subst.
    exists (EvSetpriority (-11) :: announce_output l
              ++ [sink_init_call l; EvStoreSend (send_fn_of (output_mode l))]
              ++ announce_receiver l),
      (transport_init_call l),
      (EvStoreRcv (rcv_fn_of (receiver_mode l)) :: tl).
    split; [| split].
    + rewrite E. unfold startup_events. simpl.
      repeat (rewrite <- app_assoc || rewrite <- app_comm_cons); simpl.
      reflexivity.
    + unfold transport_init_call. destruct (receiver_mode l); reflexivity.
    + now right.
Qed.

(** In the default run, the first send comes behind [pulse_output_init]. *)
Lemma loop_calls_follow_their_init_witness :
  exists before e after,
    fst (main sample_config sample_world no_options 1) = before ++ e :: after
    /\ init_of_send pulse_output_send e = true
    /\ In (EvCallSend pulse_output_send silence) after.
Proof.
  apply (proj1 (loop_calls_follow_their_init sample_config sample_world
                  no_options 1%nat) pulse_output_send silence).
  vm_compute. tauto.
Defined.

(** ** Which option decides a variable *)

Section Untouched.

Context {A : Type} (proj : locals -> A) (touch : ascii -> bool).

Hypothesis handle_opt_keeps :
  forall w a0 l opt optarg t l',
    handle_opt w a0 l opt optarg = (t, Val l') ->
    touch opt = false -> proj l' = proj l.

Lemma getopt_loop_untouched (w : world) (a0 : string) :
  forall os l t l',
    getopt_loop w a0 os l = (t, Val l') ->
    touches touch os = false -> proj l' = proj l.
Proof.
  induction os as [| [opt optarg] os IH]; intros l t l' H Hno.
  - now inversion H; subst.
  - unfold touches in Hno. simpl in Hno.
    apply orb_false_iff in Hno as [Ho Hos].
    apply getopt_loop_cons_val in H as (l1 & Hh & Hg).
    rewrite (IH _ _ _ Hg Hos). exact (handle_opt_keeps _ _ _ _ _ _ _ Hh Ho).
Qed.

(** The variable after the loop is the one its last option left. *)
Lemma getopt_loop_last (w : world) (a0 : string)
  (pre post : list (ascii * string)) (c : ascii) (v : string)
  (l0 l : locals) (t : list event) :
  getopt_loop w a0 (pre ++ (c, v) :: post) l0 = (t, Val l) ->
  touches touch post = false ->
  exists l1 l2,
    getopt_loop w a0 pre l0 = ([], Val l1)
    /\ handle_opt w a0 l1 c v = ([], Val l2)
    /\ proj l = proj l2.
Proof.
  intros H Hno.
  apply getopt_loop_app_val in H as (l1 & Hpre & H).
  apply getopt_loop_cons_val in H as (l2 & Hh & Hg).
  exists l1, l2. split; [exact Hpre |]. split; [exact Hh |].
  exact (getopt_loop_untouched _ _ _ _ _ _ Hg Hno).
Qed.

End Untouched.

(** Closes the case analysis of [handle_opt] for a variable that only
    the option of [Hno] writes. *)
Ltac keeps_field H Hno :=
  handle_opt_returns H; simpl; try reflexivity; congruence.

Lemma handle_opt_keeps_port w a0 l opt optarg t l' :
  handle_opt w a0 l opt optarg = (t, Val l') ->
  is_opt "p" opt = false -> port l' = port l.
Proof. intros H Hno. keeps_field H Hno. Qed.

Lemma handle_opt_keeps_target w a0 l opt optarg t l' :
  handle_opt w a0 l opt optarg = (t, Val l') ->
  is_opt "t" opt = false -> target_latency_ms l' = target_latency_ms l.
Proof. intros H Hno. keeps_field H Hno. Qed.

Lemma handle_opt_keeps_max w a0 l opt optarg t l' :
  handle_opt w a0 l opt optarg = (t, Val l') ->
  is_opt "l" opt = false -> max_latency_ms l' = max_latency_ms l.
Proof. intros H Hno. keeps_field H Hno. Qed.

Lemma handle_opt_keeps_alsa_device w a0 l opt optarg t l' :
  handle_opt w a0 l opt optarg = (t, Val l') ->
  is_opt "d" opt = false -> alsa_device l' = alsa_device l.
Proof. intros H Hno. keeps_field H Hno. Qed.

Lemma handle_opt_keeps_stream_name w a0 l opt optarg t l' :
  handle_opt w a0 l opt optarg = (t, Val l') ->
  is_opt "n" opt = false -> stream_name l' = stream_name l.
Proof. intros H Hno. keeps_field H Hno. Qed.

Lemma handle_opt_keeps_multicast_group w a0 l opt optarg t l' :
  handle_opt w a0 l opt optarg = (t, Val l') ->
  is_opt "g" opt = false -> multicast_group l' = multicast_group l.
Proof. intros H Hno. keeps_field H Hno. Qed.

Lemma handle_opt_keeps_ivshmem_device w a0 l opt optarg t l' :
  handle_opt w a0 l opt optarg = (t, Val l') ->
  is_opt "m" opt = false -> ivshmem_device l' = ivshmem_device l.
Proof. intros H Hno. keeps_field H Hno. Qed.

Lemma handle_opt_keeps_interface w a0 l opt optarg t l' :
  handle_opt w a0 l opt optarg = (t, Val l') ->
  is_opt "i" opt = false -> interface l' = interface l.
Proof. intros H Hno. keeps_field H Hno. Qed.


(** X14.  The numeric options: the value in force after the option
    phase is that of the last occurrence, converted as the code does
    it, the port to 16 bits (so that 70000 means 4464), the latencies to
    [int]; without the option it is the initial value, the default port,
    50 ms and 200 ms. *)
Theorem numeric_options_last_one_wins :
  forall (cfg : config_h) (w : world) (cmd : cmdline) (t : list event)
         (l : locals),
    parse_options cfg w cmd = (t, Val l) ->
    (forall pre v post,
        opts cmd = pre ++ ("p"%char, v) :: post -> has_opt "p" post = false ->
        port l = to_uint16 (atoi v))
    /\ (has_opt "p" (opts cmd) = false -> port l = DEFAULT_PORT cfg)
    /\ (forall pre v post,
           opts cmd = pre ++ ("t"%char, v) :: post ->
           has_opt "t" post = false ->
           target_latency_ms l = atoi v)
    /\ (has_opt "t" (opts cmd) = false -> target_latency_ms l = 50)
    /\ (forall pre v post,
           opts cmd = pre ++ ("l"%char, v) :: post ->
           has_opt "l" post = false ->
           max_latency_ms l = atoi v)
    /\ (has_opt "l" (opts cmd) = false -> max_latency_ms l = 200).
Proof.
  intros cfg w cmd t l Hp.
  destruct (parse_options_val_eq _ _ _ _ _ Hp) as (-> & Hg & _).
  repeat split.
  - intros pre v post Hopts Hno. rewrite Hopts in Hg.
    destruct (getopt_loop_last port (is_opt "p") handle_opt_keeps_port
                _ _ _ _ _ _ _ _ _ Hg Hno) as (l1 & l2 & _ & Hh & ->).
    unfold handle_opt in Hh. simpl in Hh.
    destruct (to_uint16 (atoi v) =? 0); now inversion Hh.
  - intros Hno.
    exact (getopt_loop_untouched port (is_opt "p") handle_opt_keeps_port
             _ _ _ _ _ _ Hg Hno).
  - intros pre v post Hopts Hno. rewrite Hopts in Hg.
    destruct (getopt_loop_last target_latency_ms (is_opt "t")
                handle_opt_keeps_target _ _ _ _ _ _ _ _ _ Hg Hno)
      as (l1 & l2 & _ & Hh & ->).
    unfold handle_opt in Hh. simpl in Hh.
    destruct (atoi v <? 0); now inversion Hh.
  - intros Hno.
    exact (getopt_loop_untouched target_latency_ms (is_opt "t")
             handle_opt_keeps_target _ _ _ _ _ _ Hg Hno).
  - intros pre v post Hopts Hno. rewrite Hopts in Hg.
    destruct (getopt_loop_last max_latency_ms (is_opt "l")
                handle_opt_keeps_max _ _ _ _ _ _ _ _ _ Hg Hno)
      as (l1 & l2 & _ & Hh & ->).
    unfold handle_opt in Hh. simpl in Hh.
    destruct (atoi v <? 0); now inversion Hh.
  - intros Hno.
    exact (getopt_loop_untouched max_latency_ms (is_opt "l")
             handle_opt_keeps_max _ _ _ _ _ _ Hg Hno).
Qed.

(** [-t 20 -p 70000 -t 35]: the second [-t] and the wrapped port reach
    the sink and the transport, the maximum latency keeps its default. *)
Lemma numeric_options_last_one_wins_witness :
  exists l,
    parse_options sample_config sample_world
      (options [("t"%char, "20"); ("p"%char, "70000"); ("t"%char, "35")])
    = ([], Val l)
    /\ target_latency_ms l = atoi "35"
    /\ port l = to_uint16 (atoi "70000")
    /\ max_latency_ms l = 200.
Proof.
  eexists. split; [reflexivity |].
  destruct (numeric_options_last_one_wins sample_config sample_world
              (options [("t"%char, "20"); ("p"%char, "70000");
                        ("t"%char, "35")]) [] _ eq_refl)
    as (Hport & _ & Htarget & _ & _ & Hmax).
  split; [| split].
  - exact (Htarget [("t"%char, "20"); ("p"%char, "70000")] "35" []
             eq_refl eq_refl).
  - exact (Hport [("t"%char, "20")] "70000" [("t"%char, "35")]
             eq_refl eq_refl).
  - exact (Hmax eq_refl).
Defined.

(** X15.  The string options: after the option phase the ALSA device,
    the stream name, the multicast group and the shared-memory device
    are those of the last [-d], [-n], [-g] and [-m]; without the option
    they are "default", "Audio", and the null pointer for the last
    two. *)
Theorem string_options_last_one_wins :
  forall (cfg : config_h) (w : world) (cmd : cmdline) (t : list event)
         (l : locals),
    parse_options cfg w cmd = (t, Val l) ->
    (forall pre v post,
        opts cmd = pre ++ ("d"%char, v) :: post -> has_opt "d" post = false ->
        alsa_device l = v)
    /\ (has_opt "d" (opts cmd) = false -> alsa_device l = "default")
    /\ (forall pre v post,
           opts cmd = pre ++ ("n"%char, v) :: post ->
           has_opt "n" post = false ->
           stream_name l = v)
    /\ (has_opt "n" (opts cmd) = false -> stream_name l = "Audio")
    /\ (forall pre v post,
           opts cmd = pre ++ ("g"%char, v) :: post ->
           has_opt "g" post = false ->
           multicast_group l = Some v)
    /\ (has_opt "g" (opts cmd) = false -> multicast_group l = None)
    /\ (forall pre v post,
           opts cmd = pre ++ ("m"%char, v) :: post ->
           has_opt "m" post = false ->
           ivshmem_device l = Some v)
    /\ (has_opt "m" (opts cmd) = false -> ivshmem_device l = None).
Proof.
  intros cfg w cmd t l Hp.
  destruct (parse_options_val_eq _ _ _ _ _ Hp) as (-> & Hg & _).
  repeat split.
  - intros pre v post Hopts Hno. rewrite Hopts in Hg.
    destruct (getopt_loop_last alsa_device (is_opt "d")
                handle_opt_keeps_alsa_device _ _ _ _ _ _ _ _ _ Hg Hno)
      as (l1 & l2 & _ & Hh & ->).
    unfold handle_opt in Hh. simpl in Hh. now inversion Hh.
  - intros Hno.
    exact (getopt_loop_untouched alsa_device (is_opt "d")
             handle_opt_keeps_alsa_device _ _ _ _ _ _ Hg Hno).
  - intros pre v post Hopts Hno. rewrite Hopts in Hg.
    destruct (getopt_loop_last stream_name (is_opt "n")
                handle_opt_keeps_stream_name _ _ _ _ _ _ _ _ _ Hg Hno)
      as (l1 & l2 & _ & Hh & ->).
    unfold handle_opt in Hh. simpl in Hh. now inversion Hh.
  - intros Hno.
    exact (getopt_loop_untouched stream_name (is_opt "n")
             handle_opt_keeps_stream_name _ _ _ _ _ _ Hg Hno).
  - intros pre v post Hopts Hno. rewrite Hopts in Hg.
    destruct (getopt_loop_last multicast_group (is_opt "g")
                handle_opt_keeps_multicast_group _ _ _ _ _ _ _ _ _ Hg Hno)
      as (l1 & l2 & _ & Hh & ->).
    unfold handle_opt in Hh. simpl in Hh. now inversion Hh.
  - intros Hno.
    exact (getopt_loop_untouched multicast_group (is_opt "g")
             handle_opt_keeps_multicast_group _ _ _ _ _ _ Hg Hno).
  - intros pre v post Hopts Hno. rewrite Hopts in Hg.
    destruct (getopt_loop_last ivshmem_device (is_opt "m")
                handle_opt_keeps_ivshmem_device _ _ _ _ _ _ _ _ _ Hg Hno)
      as (l1 & l2 & _ & Hh & ->).
    unfold handle_opt in Hh. simpl in Hh. now inversion Hh.
  - intros Hno.
    exact (getopt_loop_untouched ivshmem_device (is_opt "m")
             handle_opt_keeps_ivshmem_device _ _ _ _ _ _ Hg Hno).
Qed.

(** [-n Kitchen -d hw:0 -n Living]: the second name and the device are
    in force; no group was given. *)
Lemma string_options_last_one_wins_witness :
  exists l,
    parse_options sample_config sample_world
      (options [("n"%char, "Kitchen"); ("d"%char, "hw:0");
                ("n"%char, "Living")])
    = ([], Val l)
    /\ stream_name l = "Living" /\ alsa_device l = "hw:0"
    /\ multicast_group l = None.
Proof.
  eexists. split; [reflexivity |].
  destruct (string_options_last_one_wins sample_config sample_world
              (options [("n"%char, "Kitchen"); ("d"%char, "hw:0");
                        ("n"%char, "Living")]) [] _ eq_refl)
    as (Hd & _ & Hn & _ & _ & Hg & _).
  split; [| split].
  - exact (Hn [("n"%char, "Kitchen"); ("d"%char, "hw:0")] "Living" []
             eq_refl eq_refl).
  - exact (Hd [("n"%char, "Kitchen")] "hw:0" [("n"%char, "Living")]
             eq_refl eq_refl).
  - exact (Hg eq_refl).
Defined.

Lemma handle_opt_i_val (w : world) (a0 : string) (l l' : locals)
  (v : string) (t : list event) :
  handle_opt w a0 l "i" v = (t, Val l') ->
  get_interface w v = ([], Val (interface l')).
Proof.
  unfold handle_opt. simpl. intros H.
  apply bind_val_inv in H as (t1 & a & t2 & Hg & Hr & _).
  inversion Hr; subst. simpl.
  now rewrite (silent_get_interface _ _ _ _ Hg) in Hg.
Qed.

Lemma getopt_loop_interfaces_resolved (w : world) (a0 : string) :
  forall os l t l' v,
    getopt_loop w a0 os l = (t, Val l') ->
    In ("i"%char, v) os ->
    exists a, get_interface w v = ([], Val a).
Proof.
  induction os as [| [opt optarg] os IH]; intros l t l' v H Hin;
    [destruct Hin |].
  apply getopt_loop_cons_val in H as (l1 & Hh & Hg).
  destruct Hin as [E | Hin].
  - inversion E; subst. eexists. exact (handle_opt_i_val _ _ _ _ _ _ Hh).
  - exact (IH _ _ _ _ Hg Hin).
Qed.

(** X16.  The local interface: a start that gets through the option
    phase has resolved every [-i] of the command line, not only the last
    one; the address in force is the one [get_interface] returned for
    the last [-i], and INADDR_ANY without [-i]. *)
Theorem interface_option_last_one_wins :
  forall (cfg : config_h) (w : world) (cmd : cmdline) (t : list event)
         (l : locals),
    parse_options cfg w cmd = (t, Val l) ->
    (forall v, In ("i"%char, v) (opts cmd) ->
               exists a, get_interface w v = ([], Val a))
    /\ (forall pre v post,
           opts cmd = pre ++ ("i"%char, v) :: post ->
           has_opt "i" post = false ->
           get_interface w v = ([], Val (interface l)))
    /\ (has_opt "i" (opts cmd) = false -> interface l = INADDR_ANY).
Proof.
  intros cfg w cmd t l Hp.
  destruct (parse_options_val_eq _ _ _ _ _ Hp) as (-> & Hg & _).
  split; [| split].
  - intros v Hin. exact (getopt_loop_interfaces_resolved _ _ _ _ _ _ _ Hg Hin).
  - intros pre v post Hopts Hno. rewrite Hopts in Hg.
    destruct (getopt_loop_last interface (is_opt "i")
                handle_opt_keeps_interface _ _ _ _ _ _ _ _ _ Hg Hno)
      as (l1 & l2 & _ & Hh & ->).
    exact (handle_opt_i_val _ _ _ _ _ _ Hh).
  - intros Hno.
    exact (getopt_loop_untouched interface (is_opt "i")
             handle_opt_keeps_interface _ _ _ _ _ _ Hg Hno).
Qed.

(** [-i 127.0.0.1 -i eth0]: the address of eth0 is in force. *)
Lemma interface_option_last_one_wins_witness :
  exists l,
    parse_options sample_config eth0_world
      (options [("i"%char, "127.0.0.1"); ("i"%char, "eth0")])
    = ([], Val l)
    /\ get_interface eth0_world "eth0" = ([], Val (interface l))
    /\ interface l = 0x0500000A.
Proof.
  eexists. split; [reflexivity |].
  destruct (interface_option_last_one_wins sample_config eth0_world
              (options [("i"%char, "127.0.0.1"); ("i"%char, "eth0")])
              [] _ eq_refl) as (_ & Hlast & _).
  split; [| reflexivity].
  exact (Hlast [("i"%char, "127.0.0.1")] "eth0" [] eq_refl eq_refl).
Defined.





(** ** Options that the selected backend does not read *)

Section Forget.

Variable forget : locals -> locals.

Hypothesis handle_opt_respects :
  forall w a0 l1 l2 opt optarg,
    forget l1 = forget l2 ->
    same_up_to forget (handle_opt w a0 l1 opt optarg)
                      (handle_opt w a0 l2 opt optarg).

Lemma same_up_to_bind (m1 m2 : M locals) (k1 k2 : locals -> M locals) :
  same_up_to forget m1 m2 ->
  (forall l1 l2, forget l1 = forget l2 -> same_up_to forget (k1 l1) (k2 l2)) ->
  same_up_to forget (bind m1 k1) (bind m2 k2).
Proof.
  unfold same_up_to.
  destruct m1 as [t1 [l1 | s1]], m2 as [t2 [l2 | s2]]; simpl;
    intros [-> H] Hk; try contradiction.
  - destruct (Hk l1 l2 H) as [Et Er].
    destruct (k1 l1) as [u1 r1], (k2 l2) as [u2 r2]. simpl in *.
    now subst.
  - auto.
Qed.

Lemma bind_same_up_to {B : Type} (m1 m2 : M locals) (k1 k2 : locals -> M B) :
  same_up_to forget m1 m2 ->
  (forall t l1 l2,
      m1 = (t, Val l1) -> forget l1 = forget l2 -> k1 l1 = k2 l2) ->
  bind m1 k1 = bind m2 k2.
Proof.
  unfold same_up_to.
  destruct m1 as [t1 [l1 | s1]], m2 as [t2 [l2 | s2]]; simpl;
    intros [-> H] Hk; try contradiction.
  - now rewrite (Hk t2 l1 l2 eq_refl H).
  - now subst.
Qed.

Lemma getopt_loop_respects (w : world) (a0 : string) :
  forall os l1 l2,
    forget l1 = forget l2 ->
    same_up_to forget (getopt_loop w a0 os l1) (getopt_loop w a0 os l2).
Proof.
  induction os as [| [opt optarg] os IH]; intros l1 l2 Hl; simpl.
  - split; [reflexivity | exact Hl].
  - apply same_up_to_bind; [now apply handle_opt_respects | exact IH].
Qed.

(** Taking out one option that only writes to what [forget] erases. *)
Lemma getopt_loop_drop (w : world) (a0 : string)
  (pre post : list (ascii * string)) (c : ascii) (v : string) (l : locals) :
  (forall l0, exists l0',
      handle_opt w a0 l0 c v = ([], Val l0') /\ forget l0' = forget l0) ->
  same_up_to forget (getopt_loop w a0 (pre ++ (c, v) :: post) l)
                    (getopt_loop w a0 (pre ++ post) l).
Proof.
  intros Hc. rewrite !getopt_loop_app.
  apply same_up_to_bind; [now apply getopt_loop_respects |].
  intros l1 l2 Hl. simpl.
  destruct (Hc l1) as (l1' & -> & Hl1).
  change ((@nil event, Val l1')) with (ret l1'). rewrite bind_ret_l.
  apply getopt_loop_respects. congruence.
Qed.

Lemma main_drop (cfg : config_h) (w : world) (cmd : cmdline)
  (pre post : list (ascii * string)) (c : ascii) (v : string) (n : nat) :
  opts cmd = pre ++ (c, v) :: post ->
  (forall l0, exists l0',
      handle_opt w (arg0 cmd) l0 c v = ([], Val l0')
      /\ forget l0' = forget l0) ->
  (forall t l1 l2,
      parse_options cfg w cmd = (t, Val l1) ->
      forget l1 = forget l2 ->
      after_options cfg w (arg0 cmd) l1 n
      = after_options cfg w (arg0 cmd) l2 n) ->
  main cfg w cmd n = main cfg w (with_opts cmd (pre ++ post)) n.
Proof.
  intros Hopts Hc Hafter. rewrite !main_after_options. simpl arg0.
  apply bind_same_up_to; [| exact Hafter].
  unfold parse_options. simpl. rewrite Hopts.
  apply same_up_to_bind; [now apply getopt_loop_drop |].
  intros l1 l2 Hl. destruct (leftover cmd).
  - split; reflexivity.
  - split; [reflexivity | exact Hl].
Qed.

End Forget.

(** Closes the proof that [handle_opt] respects an eraser, once the two
    records are known to agree elsewhere. *)
Ltac handle_opt_respects_tac :=
  unfold handle_opt, same_up_to;
  repeat match goal with
         | |- context [if is_opt ?c ?o then _ else _] => destruct (is_opt c o)
         end;
  cbn;
  repeat match goal with
         | |- context [if ?b then _ else _] => destruct b
         | |- context [get_interface ?w ?a] =>
             destruct (get_interface w a) as [? [? | ?]]
         end;
  cbn; auto.

Lemma handle_opt_respects_max w a0 l1 l2 opt optarg :
  forget_max l1 = forget_max l2 ->
  same_up_to forget_max (handle_opt w a0 l1 opt optarg)
                        (handle_opt w a0 l2 opt optarg).
Proof.
  destruct l1, l2. unfold forget_max, set_max_latency_ms. simpl.
  intros H. inversion H; subst. handle_opt_respects_tac.
Qed.

Lemma handle_opt_respects_target w a0 l1 l2 opt optarg :
  forget_target l1 = forget_target l2 ->
  same_up_to forget_target (handle_opt w a0 l1 opt optarg)
                           (handle_opt w a0 l2 opt optarg).
Proof.
  destruct l1, l2. unfold forget_target, set_target_latency_ms. simpl.
  intros H. inversion H; subst. handle_opt_respects_tac.
Qed.

Lemma handle_opt_respects_alsa_device w a0 l1 l2 opt optarg :
  forget_alsa_device l1 = forget_alsa_device l2 ->
  same_up_to forget_alsa_device (handle_opt w a0 l1 opt optarg)
                                (handle_opt w a0 l2 opt optarg).
Proof.
  destruct l1, l2. unfold forget_alsa_device, set_alsa_device. simpl.
  intros H. inversion H; subst. handle_opt_respects_tac.
Qed.

Lemma handle_opt_respects_stream_name w a0 l1 l2 opt optarg :
  forget_stream_name l1 = forget_stream_name l2 ->
  same_up_to forget_stream_name (handle_opt w a0 l1 opt optarg)
                                (handle_opt w a0 l2 opt optarg).
Proof.
  destruct l1, l2. unfold forget_stream_name, set_stream_name. simpl.
  intros H. inversion H; subst. handle_opt_respects_tac.
Qed.

Lemma after_options_forget_max cfg w a0 l1 l2 n :
  forget_max l1 = forget_max l2 ->
  output_mode l1 <> Pulseaudio ->
  after_options cfg w a0 l1 n = after_options cfg w a0 l2 n.
Proof.
  destruct l1, l2. unfold forget_max, set_max_latency_ms. simpl.
  intros H Hm. inversion H; subst.
  unfold after_options, init_output, init_receiver, verbose. simpl.
  destruct output_mode1; [reflexivity | reflexivity | contradiction].
Qed.

Lemma after_options_forget_target cfg w a0 l1 l2 n :
  forget_target l1 = forget_target l2 ->
  output_mode l1 = Raw ->
  after_options cfg w a0 l1 n = after_options cfg w a0 l2 n.
Proof.
  destruct l1, l2. unfold forget_target, set_target_latency_ms. simpl.
  intros H Hm. inversion H; subst.
  unfold after_options, init_output, init_receiver, verbose. simpl.
  reflexivity.
Qed.

Lemma after_options_forget_alsa_device cfg w a0 l1 l2 n :
  forget_alsa_device l1 = forget_alsa_device l2 ->
  output_mode l1 <> Alsa ->
  after_options cfg w a0 l1 n = after_options cfg w a0 l2 n.
Proof.
  destruct l1, l2. unfold forget_alsa_device, set_alsa_device. simpl.
  intros H Hm. inversion H; subst.
  unfold after_options, init_output, init_receiver, verbose. simpl.
  destruct output_mode1; [reflexivity | contradiction | reflexivity].
Qed.

Lemma after_options_forget_stream_name cfg w a0 l1 l2 n :
  forget_stream_name l1 = forget_stream_name l2 ->
  output_mode l1 <> Pulseaudio ->
  after_options cfg w a0 l1 n = after_options cfg w a0 l2 n.
Proof.
  destruct l1, l2. unfold forget_stream_name, set_stream_name. simpl.
  intros H Hm. inversion H; subst.
  unfold after_options, init_output, init_receiver, verbose. simpl.
  destruct output_mode1; [reflexivity | reflexivity | contradiction].
Qed.

(** X18.  The latency options matter only to the backends the usage
    text names.  A valid [-l] changes nothing in what the process does
    unless the output is PulseAudio, and a valid [-t] changes nothing
    when the output is the raw one: the run is, event for event, the run
    of the command line without that option. *)
Theorem latency_options_matter_only_to_their_backends :
  forall (cfg : config_h) (w : world) (cmd : cmdline)
         (pre post : list (ascii * string)) (v : string),
    (opts cmd = pre ++ ("l"%char, v) :: post ->
     0 <= atoi v ->
     (forall t l, parse_options cfg w cmd = (t, Val l) ->
                  output_mode l <> Pulseaudio) ->
     forall n, main cfg w cmd n = main cfg w (with_opts cmd (pre ++ post)) n)
    /\ (opts cmd = pre ++ ("t"%char, v) :: post ->
        0 <= atoi v ->
        (forall t l, parse_options cfg w cmd = (t, Val l) ->
                     output_mode l = Raw) ->
        forall n,
          main cfg w cmd n = main cfg w (with_opts cmd (pre ++ post)) n).
Proof.
  intros cfg w cmd pre post v. split; intros Hopts Hv Hmode n.
  - apply (main_drop forget_max handle_opt_respects_max cfg w cmd pre post
             "l" v n Hopts).
    + intros l0. unfold handle_opt. simpl.
      apply Z.ltb_ge in Hv. rewrite Hv. eexists. split; [reflexivity |].
      now destruct l0.
    + intros t l1 l2 Hp Hl.
      exact (after_options_forget_max _ _ _ _ _ _ Hl (Hmode _ _ Hp)).
  - apply (main_drop forget_target handle_opt_respects_target cfg w cmd
             pre post "t" v n Hopts).
    + intros l0. unfold handle_opt. simpl.
      apply Z.ltb_ge in Hv. rewrite Hv. eexists. split; [reflexivity |].
      now destruct l0.
    + intros t l1 l2 Hp Hl.
      exact (after_options_forget_target _ _ _ _ _ _ Hl (Hmode _ _ Hp)).
Qed.

(** [-o alsa -l 500 -v] runs as [-o alsa -v] does. *)
Lemma latency_options_matter_only_to_their_backends_witness :
  main sample_config sample_world
    (options [("o"%char, "alsa"); ("l"%char, "500"); ("v"%char, "")]) 2
  = main sample_config sample_world
      (options [("o"%char, "alsa"); ("v"%char, "")]) 2.
Proof.
  assert (0 <= atoi "500") as Hv by (vm_compute; discriminate).
  refine (proj1 (latency_options_matter_only_to_their_backends
                   sample_config sample_world
                   (options [("o"%char, "alsa"); ("l"%char, "500");
                             ("v"%char, "")])
                   [("o"%char, "alsa")] [("v"%char, "")] "500")
            eq_refl Hv _ 2%nat).
  intros t l Hp. vm_compute in Hp. inversion Hp. discriminate.
Defined.

(** X19.  The name options likewise: the ALSA device of [-d] changes
    nothing unless the output is ALSA, and the stream name of [-n]
    nothing unless it is PulseAudio. *)
Theorem name_options_matter_only_to_their_backends :
  forall (cfg : config_h) (w : world) (cmd : cmdline)
         (pre post : list (ascii * string)) (v : string),
    (opts cmd = pre ++ ("d"%char, v) :: post ->
     (forall t l, parse_options cfg w cmd = (t, Val l) ->
                  output_mode l <> Alsa) ->
     forall n, main cfg w cmd n = main cfg w (with_opts cmd (pre ++ post)) n)
    /\ (opts cmd = pre ++ ("n"%char, v) :: post ->
        (forall t l, parse_options cfg w cmd = (t, Val l) ->
                     output_mode l <> Pulseaudio) ->
        forall n,
          main cfg w cmd n = main cfg w (with_opts cmd (pre ++ post)) n).
Proof.
  intros cfg w cmd pre post v. split; intros Hopts Hmode n.
  - apply (main_drop forget_alsa_device handle_opt_respects_alsa_device
             cfg w cmd pre post "d" v n Hopts).
    + intros l0. unfold handle_opt. simpl.
      eexists. split; [reflexivity |]. now destruct l0.
    + intros t l1 l2 Hp Hl.
      exact (after_options_forget_alsa_device _ _ _ _ _ _ Hl (Hmode _ _ Hp)).
  - apply (main_drop forget_stream_name handle_opt_respects_stream_name
             cfg w cmd pre post "n" v n Hopts).
    + intros l0. unfold handle_opt. simpl.
      eexists. split; [reflexivity |]. now destruct l0.
    + intros t l1 l2 Hp Hl.
      exact (after_options_forget_stream_name _ _ _ _ _ _ Hl
               (Hmode _ _ Hp)).
Qed.

(** [-d hw:1] with the default PulseAudio output runs as no option. *)
Lemma name_options_matter_only_to_their_backends_witness :
  main sample_config sample_world (options [("d"%char, "hw:1")]) 2
  = main sample_config sample_world (options []) 2.
Proof.
  refine (proj1 (name_options_matter_only_to_their_backends
                   sample_config sample_world
                   (options [("d"%char, "hw:1")]) [] [] "hw:1")
            eq_refl _ 2%nat).
  intros t l Hp. vm_compute in Hp. inversion Hp. discriminate.
Defined.

Lemma handle_opt_respects_port w a0 l1 l2 opt optarg :
  forget_port l1 = forget_port l2 ->
  same_up_to forget_port (handle_opt w a0 l1 opt optarg)
                         (handle_opt w a0 l2 opt optarg).
Proof.
  destruct l1, l2. unfold forget_port, set_port. simpl.
  intros H. inversion H; subst. handle_opt_respects_tac.
Qed.

Lemma handle_opt_respects_multicast_group w a0 l1 l2 opt optarg :
  forget_multicast_group l1 = forget_multicast_group l2 ->
  same_up_to forget_multicast_group (handle_opt w a0 l1 opt optarg)
                                    (handle_opt w a0 l2 opt optarg).
Proof.
  destruct l1, l2. unfold forget_multicast_group, set_multicast_group. simpl.
  intros H. inversion H; subst. handle_opt_respects_tac.
Qed.

Lemma handle_opt_respects_interface w a0 l1 l2 opt optarg :
  forget_interface l1 = forget_interface l2 ->
  same_up_to forget_interface (handle_opt w a0 l1 opt optarg)
                              (handle_opt w a0 l2 opt optarg).
Proof.
  destruct l1, l2. unfold forget_interface, set_interface. simpl.
  intros H. inversion H; subst. handle_opt_respects_tac.
Qed.

Lemma after_options_forget_port cfg w a0 l1 l2 n :
  forget_port l1 = forget_port l2 ->
  receiver_mode l1 = SharedMem ->
  after_options cfg w a0 l1 n = after_options cfg w a0 l2 n.
Proof.
  destruct l1, l2. unfold forget_port, set_port. simpl.
  intros H Hm. inversion H; subst.
  unfold after_options, init_output, init_receiver, verbose. simpl.
  reflexivity.
Qed.

Lemma after_options_forget_multicast_group cfg w a0 l1 l2 n :
  forget_multicast_group l1 = forget_multicast_group l2 ->
  receiver_mode l1 = SharedMem ->
  after_options cfg w a0 l1 n = after_options cfg w a0 l2 n.
Proof.
  destruct l1, l2. unfold forget_multicast_group, set_multicast_group. simpl.
  intros H Hm. inversion H; subst.
  unfold after_options, init_output, init_receiver, verbose. simpl.
  reflexivity.
Qed.

Lemma after_options_forget_interface cfg w a0 l1 l2 n :
  forget_interface l1 = forget_interface l2 ->
  receiver_mode l1 = SharedMem ->
  after_options cfg w a0 l1 n = after_options cfg w a0 l2 n.
Proof.
  destruct l1, l2. unfold forget_interface, set_interface. simpl.
  intros H Hm. inversion H; subst.
  unfold after_options, init_output, init_receiver, verbose. simpl.
  reflexivity.
Qed.

(** X20.  In shared-memory mode the network options go unused: a [-p]
    with a port other than 0, a [-g], or an [-i] that resolves, changes
    nothing in what the process does; the run is the run of the command
    line without that option. *)
Theorem network_options_are_unused_in_shared_memory_mode :
  forall (cfg : config_h) (w : world) (cmd : cmdline)
         (pre post : list (ascii * string)) (v : string),
    (forall t l, parse_options cfg w cmd = (t, Val l) ->
                 receiver_mode l = SharedMem) ->
    (opts cmd = pre ++ ("p"%char, v) :: post ->
     to_uint16 (atoi v) <> 0 ->
     forall n, main cfg w cmd n = main cfg w (with_opts cmd (pre ++ post)) n)
    /\ (opts cmd = pre ++ ("g"%char, v) :: post ->
        forall n,
          main cfg w cmd n = main cfg w (with_opts cmd (pre ++ post)) n)
    /\ (opts cmd = pre ++ ("i"%char, v) :: post ->
        (exists a, get_interface w v = ([], Val a)) ->
        forall n,
          main cfg w cmd n = main cfg w (with_opts cmd (pre ++ post)) n).
Proof.
  intros cfg w cmd pre post v Hmode. split; [| split].
  - intros Hopts Hv n.
    apply (main_drop forget_port handle_opt_respects_port cfg w cmd pre post
             "p" v n Hopts).
    + intros l0. unfold handle_opt. simpl.
      apply Z.eqb_neq in Hv. rewrite Hv. eexists. split; [reflexivity |].
      now destruct l0.
    + intros t l1 l2 Hp Hl.
      exact (after_options_forget_port _ _ _ _ _ _ Hl (Hmode _ _ Hp)).
  - intros Hopts n.
    apply (main_drop forget_multicast_group
             handle_opt_respects_multicast_group cfg w cmd pre post
             "g" v n Hopts).
    + intros l0. unfold handle_opt. simpl.
      eexists. split; [reflexivity |]. now destruct l0.
    + intros t l1 l2 Hp Hl.
      exact (after_options_forget_multicast_group _ _ _ _ _ _ Hl
               (Hmode _ _ Hp)).
  - intros Hopts [a Ha] n.
    apply (main_drop forget_interface handle_opt_respects_interface cfg w cmd
             pre post "i" v n Hopts).
    + intros l0. unfold handle_opt. simpl. rewrite Ha.
      eexists. split; [reflexivity |]. now destruct l0.
    + intros t l1 l2 Hp Hl.
      exact (after_options_forget_interface _ _ _ _ _ _ Hl (Hmode _ _ Hp)).
Qed.

(** [-m /dev/uio0 -p 5000] runs as [-m /dev/uio0] does. *)
Lemma network_options_are_unused_in_shared_memory_mode_witness :
  main sample_config sample_world
    (options [("m"%char, "/dev/uio0"); ("p"%char, "5000")]) 2
  = main sample_config sample_world (options [("m"%char, "/dev/uio0")]) 2.
Proof.
  assert (to_uint16 (atoi "5000") <> 0) as Hv by (vm_compute; discriminate).
  assert (forall t l,
             parse_options sample_config sample_world
               (options [("m"%char, "/dev/uio0"); ("p"%char, "5000")])
             = (t, Val l) ->
             receiver_mode l = SharedMem) as Hmode.
  { intros t l Hp. vm_compute in Hp. now inversion Hp. }
  exact (proj1 (network_options_are_unused_in_shared_memory_mode
                  sample_config sample_world
                  (options [("m"%char, "/dev/uio0"); ("p"%char, "5000")])
                  [("m"%char, "/dev/uio0")] [] "5000" Hmode)
           eq_refl Hv 2%nat).
Defined.

(** * Values the option loop turns down, values it ignores *)






Lemma handle_opt_respects_output w a0 l1 l2 opt optarg :
  forget_output l1 = forget_output l2 ->
  same_up_to forget_output (handle_opt w a0 l1 opt optarg)
                           (handle_opt w a0 l2 opt optarg).
Proof.
  destruct l1, l2. unfold forget_output, set_output. simpl.
  intros H. inversion H; subst. handle_opt_respects_tac.
Qed.

Lemma after_options_forget_output cfg w a0 l1 l2 n :
  forget_output l1 = forget_output l2 ->
  after_options cfg w a0 l1 n = after_options cfg w a0 l2 n.
Proof.
  destruct l1, l2. unfold forget_output, set_output. simpl.
  intros H. inversion H; subst. reflexivity.
Qed.

(** C9, as the code has it.  A value of [-o] that is none of "pulse",
    "alsa", "raw" is ignored without a word, on any command line: the
    option only records its value in [output] and leaves the output
    mode as it is, and the process does, event for event, what it does
    on the command line without that option, so that no error and no
    usage text comes from it.  The backend then in use is the
    compiled-in default when no [-o] of the command line has a
    recognised value, with its init and send functions installed by the
    start; behind an [-o] with a recognised value it is the backend that
    this one names. *)
Theorem unrecognised_output_value_is_ignored :
  forall (cfg : config_h) (w : world) (cmd : cmdline),
    (forall pre v post,
        opts cmd = pre ++ ("o"%char, v) :: post ->
        recognised_output v = false ->
        (forall n,
            main cfg w cmd n = main cfg w (with_opts cmd (pre ++ post)) n)
        /\ forall l,
             handle_opt w (arg0 cmd) l "o" v
             = ([], Val (set_output (Some v) l))
             /\ output_mode (set_output (Some v) l) = output_mode l)
    /\ ((forall v, In ("o"%char, v) (opts cmd) ->
                   recognised_output v = false) ->
        (forall n,
            main cfg w cmd n
            = main cfg w (with_opts cmd (without_o (opts cmd))) n)
        /\ forall t l,
             parse_options cfg w cmd = (t, Val l) ->
             output_mode l = default_output_mode cfg
             /\ forall t0 r s,
                  startup cfg w cmd = (t0, Val (r, s)) ->
                  s = send_fn_of (default_output_mode cfg)
                  /\ In (sink_init_call l) t0
                  /\ is_sink_init (sink_init_call l) = true)
    /\ (forall pre v0 m post t l,
           opts cmd = pre ++ ("o"%char, v0) :: post ->
           output_of_name v0 = Some m ->
           (forall v, In ("o"%char, v) post -> recognised_output v = false) ->
           parse_options cfg w cmd = (t, Val l) ->
           output_mode l = m).
Proof.
  intros cfg w cmd. split; [| split].
  - intros pre v post Hopts Hv. split.
    + intros n.
      apply (main_drop forget_output handle_opt_respects_output cfg w cmd
               pre post "o" v n Hopts).
      * intros l0. rewrite (handle_opt_unrecognised _ _ _ _ Hv).
        eexists. split; [reflexivity |]. now destruct l0.
      * intros t l1 l2 _ Hl.
        exact (after_options_forget_output _ _ _ _ _ _ Hl).
    + intros l. split; [now apply handle_opt_unrecognised | reflexivity].
  - intros Hun. split.
    + intros n. unfold main. f_equal. unfold startup.
      apply bind_same_but_output.
      * unfold parse_options. simpl.
        apply same_but_output_bind.
        -- apply getopt_loop_without_o; [exact Hun | reflexivity].
        -- intros l1 l2 Hl. destruct (leftover cmd).
           ++ split; reflexivity.
           ++ split; [reflexivity | exact Hl].
      * intros l1 l2 Hl. simpl.
        now rewrite (init_output_forget cfg w (arg0 cmd) l1 l2 Hl),
          (init_receiver_forget l1 l2 Hl).
    + intros t l Hp.
      destruct (parse_options_val_inv _ _ _ _ _ Hp) as [Hg _].
      pose proof (getopt_loop_output_mode _ _ _ _ _ _ Hun Hg) as Hm.
      split; [exact Hm |]. intros t0 r s Hs.
      destruct (startup_val_inv _ _ _ _ _ _ Hs)
        as (tp & l' & Hp' & _ & -> & _ & ->).
      rewrite Hp in Hp'. inversion Hp'; subst l' tp.
      rewrite Hm. repeat split.
      * apply in_or_app. right. unfold startup_events. right.
        apply in_or_app. right. now left.
      * apply sink_init_call_is_sink_init.
  - intros pre v0 m post t l Hopts Hv0 Hpost Hp.
    destruct (parse_options_val_eq _ _ _ _ _ Hp) as (_ & Hg & _).
    rewrite Hopts in Hg.
    apply getopt_loop_app_val in Hg as (l1 & _ & Hg).
    apply getopt_loop_cons_val in Hg as (l2 & Hh & Hg).
    rewrite (getopt_loop_output_mode _ _ _ _ _ _ Hpost Hg).
    exact (handle_opt_output_of_name _ _ _ _ _ _ _ Hv0 Hh).
Qed.

(** [-o jack -v]: the run is the run of [-v], on the default backend. *)
Lemma unrecognised_output_value_is_ignored_witness :
  main sample_config sample_world
    (options [("o"%char, "jack"); ("v"%char, "")]) 2
  = main sample_config sample_world (options [("v"%char, "")]) 2
  /\ handle_opt sample_world "scream" (initial_locals sample_config)
       "o" "jack"
     = ([], Val (set_output (Some "jack") (initial_locals sample_config))).
Proof.
  destruct (unrecognised_output_value_is_ignored sample_config sample_world
              (options [("o"%char, "jack"); ("v"%char, "")]))
    as (Hone & _ & _).
  destruct (Hone [] "jack" [("v"%char, "")] eq_refl eq_refl) as [Hrun Hopt].
  split; [exact (Hrun 2%nat) |].
  exact (proj1 (Hopt (initial_locals sample_config))).
Defined.

(** C9, as the claim states it, fails behind a recognised [-o].  In
    [-o raw -o jack], on a build whose default is PulseAudio, "jack" is
    none of the three names and is ignored, but the backend in use is
    the raw one that the first option selected, not the default. *)
Lemma raw_output_stays_behind_unrecognised_one :
  recognised_output "jack" = false
  /\ default_output_mode sample_config = Pulseaudio
  /\ (exists l,
         parse_options sample_config sample_world
           (options [("o"%char, "raw"); ("o"%char, "jack")]) = ([], Val l)
         /\ output_mode l = Raw)
  /\ filter is_sink_init
       (fst (main sample_config sample_world
               (options [("o"%char, "raw"); ("o"%char, "jack")]) 2))
     = [EvRawInit].
Proof.
  split; [reflexivity |]. split; [reflexivity |]. split.
  - eexists. split; reflexivity.
  - reflexivity.
Qed.
